(** * zarr-python: storage utilities, object-store adapter and zstd codec

    A shallow embedding of

    - [zarr/storage/_utils.py]  ([normalize_path], [_normalize_byte_range_index]),
    - [zarr/storage/object_store.py]  ([ObjectStore.get], [ObjectStore.exists],
      [_get_partial_values] and its helpers, the listing and the writing
      methods),
    - [zarr/v3/codecs/zstd.py]  ([parse_zstd_level], [parse_checksum], [ZstdCodec]),
    - [zarr/config.py]  ([parse_indexing_order], [parse_asyncio_loop],
      [RuntimeConfiguration]),

    together with the properties the specification states about them.

    Python values are modelled as follows.  A [str] is a [string]; [bytes] is a
    list of [byte]; a Python [int] is a [Z]; a raised exception is the [Raise]
    outcome of the [result] monad below, carrying the class of the exception;
    a [dict] with string keys is a [gmap string _] where only membership and
    lookup are used, and an association list where insertion order is
    observable. *)

From Stdlib Require Import ZArith Sorted.
From Stdlib.Strings Require Import Ascii String Byte.
From stdpp Require Import gmap strings list.

Local Open Scope Z_scope.
Local Open Scope string_scope.

(** ** Exceptions and the error monad *)

(** The exception classes that the embedded code raises or catches.
    [OtherError] stands for any backend failure of another class
    (permission, network, timeout, ...), carried by its name. *)
Inductive exn : Type :=
  | FileNotFoundError
  | IsADirectoryError
  | NotADirectoryError
  | ValueError
  | UnicodeDecodeError
  | TypeError
  | UnboundLocalError
  | IndexError
  | KeyError
  | NotImplementedError
  | OtherError (name : string).

#[global] Instance exn_eq_dec : EqDecision exn.
Proof. solve_decision. Defined.

(** [UnicodeDecodeError] is a subclass of [ValueError]; the other classes
    modelled here are unrelated to each other. *)
Definition issubclass (e cls : exn) : bool :=
  match e, cls with
  | UnicodeDecodeError, ValueError => true
  | _, _ => bool_decide (e = cls)
  end.

(** [except classes:] catches [e] when [e] is an instance of one of them. *)
Definition except_matches (classes : list exn) (e : exn) : bool :=
  existsb (issubclass e) classes.

Inductive result (A : Type) : Type :=
  | Ok (a : A)
  | Raise (e : exn).
Arguments Ok {A} a.
Arguments Raise {A} e.

Definition bind {A B : Type} (r : result A) (k : A -> result B) : result B :=
  match r with
  | Ok a => k a
  | Raise e => Raise e
  end.

Notation "x <~ c ;; k" := (bind c (fun x => k))
  (at level 100, c at next level, right associativity).

(** [try: body except classes: handler] *)
Definition try_except {A : Type} (body : result A) (classes : list exn)
    (handler : result A) : result A :=
  match body with
  | Ok a => Ok a
  | Raise e => if except_matches classes e then handler else Raise e
  end.

(** Monadic map over a list, left to right, stopping at the first failure. *)
Fixpoint mapM {A B : Type} (f : A -> result B) (l : list A) : result (list B) :=
  match l with
  | [] => Ok []
  | a :: l' => b <~ f a ;; bs <~ mapM f l' ;; Ok (b :: bs)
  end.

Definition bytes : Type := list byte.

(** [zarr.core.buffer.Buffer]: an owned byte sequence; [from_bytes] is
    [prototype.buffer.from_bytes]. *)
Inductive Buffer : Type :=
  | from_bytes (b : bytes).

Definition to_bytes (data : Buffer) : bytes :=
  match data with from_bytes b => b end.

(** [len(data)] *)
Definition len (data : Buffer) : Z := Z.of_nat (length (to_bytes data)).

(** ** [zarr/storage/_utils.py] *)

Module Utils.

(** *** String primitives used by [normalize_path] *)

Definition is_slash (c : ascii) : bool := Ascii.eqb c "/"%char.
Definition is_backslash (c : ascii) : bool := Ascii.eqb c "\"%char.

(** [s.replace("\\", "/")] *)
Fixpoint replace_backslash (s : string) : string :=
  match s with
  | EmptyString => EmptyString
  | String c rest =>
      String (if is_backslash c then "/"%char else c) (replace_backslash rest)
  end.

(** [s.lstrip("/")] *)
Fixpoint lstrip_slash (s : string) : string :=
  match s with
  | EmptyString => EmptyString
  | String c rest => if is_slash c then lstrip_slash rest else s
  end.

(** [s.rstrip("/")]: a slash is dropped exactly when everything after it
    has been dropped. *)
Fixpoint rstrip_slash (s : string) : string :=
  match s with
  | EmptyString => EmptyString
  | String c rest =>
      match rstrip_slash rest with
      | EmptyString => if is_slash c then EmptyString else String c EmptyString
      | r => String c r
      end
  end.

(** [s.strip("/")] *)
Definition strip_slash (s : string) : string := rstrip_slash (lstrip_slash s).

(** [re.compile(r"//+").sub("/", s)]: every maximal run of two or more
    slashes is replaced by one slash.  Scanning from the left, a slash that
    is followed by another slash is inside such a run and is dropped; the
    last slash of the run is the one that stays. *)
Fixpoint collapse_slashes (s : string) : string :=
  match s with
  | EmptyString => EmptyString
  | String c rest =>
      match rest with
      | String c' _ =>
          if is_slash c && is_slash c' then collapse_slashes rest
          else String c (collapse_slashes rest)
      | EmptyString => String c EmptyString
      end
  end.

(** [s.split("/")]: the empty string splits into one empty segment. *)
Fixpoint split_slash (s : string) : list string :=
  match s with
  | EmptyString => [EmptyString]
  | String c rest =>
      if is_slash c then EmptyString :: split_slash rest
      else match split_slash rest with
           | seg :: segs => String c seg :: segs
           | [] => [String c EmptyString]
           end
  end.

(** [s in {".", ".."}] *)
Definition is_dot_segment (s : string) : bool :=
  String.eqb s "." || String.eqb s "..".

(** [str(b, "ascii")]: every byte must be below 128. *)
Fixpoint decode_ascii (b : bytes) : result string :=
  match b with
  | [] => Ok EmptyString
  | x :: b' =>
      if (Byte.to_N x <? 128)%N
      then s <~ decode_ascii b' ;; Ok (String (ascii_of_byte x) s)
      else Raise UnicodeDecodeError
  end.

(** *** [normalize_path] *)

(** The values [normalize_path] can be called with.  A [pathlib.Path] is
    carried by the string [str(path)] gives for it; an object of any other
    type is carried by the name of its type. *)
Inductive path_arg : Type :=
  | PathNone
  | PathBytes (b : bytes)
  | PathLike (str_of_path : string)
  | PathStr (s : string)
  | PathOther (type_name : string).

(** The [if]/[elif] chain that turns the argument into a [str]. *)
Definition coerce_path (path : path_arg) : result string :=
  match path with
  | PathNone => Ok ""
  | PathBytes b => decode_ascii b
  | PathLike s => Ok s
  | PathStr s => Ok s
  | PathOther _ => Raise TypeError
  end.

(** The string whose segments are inspected: backslashes converted,
    leading and trailing slashes removed, repeated slashes collapsed. *)
Definition clean_path (s : string) : string :=
  (* convert backslash to forward slash *)
  let result1 := replace_backslash s in
  (* remove leading and trailing slashes *)
  let result2 := strip_slash result1 in
  (* collapse any repeated slashes *)
  collapse_slashes result2.

Definition normalize_path (path : path_arg) : result string :=
  result0 <~ coerce_path path ;;
  let result := clean_path result0 in
  (* disallow path segments with just '.' or '..' *)
  let segments := split_slash result in
  if existsb is_dot_segment segments then Raise ValueError
  else Ok result.

(** *** What a normalized key looks like *)

Fixpoint has_backslash (s : string) : bool :=
  match s with
  | EmptyString => false
  | String c rest => is_backslash c || has_backslash rest
  end.

Definition starts_with_slash (s : string) : bool :=
  match s with
  | EmptyString => false
  | String c _ => is_slash c
  end.

Fixpoint ends_with_slash (s : string) : bool :=
  match s with
  | EmptyString => false
  | String c rest =>
      match rest with
      | EmptyString => is_slash c
      | String _ _ => ends_with_slash rest
      end
  end.

Fixpoint has_double_slash (s : string) : bool :=
  match s with
  | EmptyString => false
  | String c rest =>
      match rest with
      | EmptyString => false
      | String c' _ => (is_slash c && is_slash c') || has_double_slash rest
      end
  end.

(** A key: no backslash, no leading, trailing or repeated slash, and no
    segment equal to [.] or [..]. *)
Definition is_key (s : string) : bool :=
  negb (has_backslash s) && negb (starts_with_slash s) &&
  negb (ends_with_slash s) && negb (has_double_slash s) &&
  negb (existsb is_dot_segment (split_slash s)).

(** *** [_normalize_byte_range_index] *)

(** A [ByteRangeRequest] as this function inspects it: [None], a tuple
    [(start, end)], or a mapping such as [{"offset": n}] or [{"suffix": n}]. *)
Inductive ByteRangeRequest : Type :=
  | RangeNone
  | RangeTuple (fst_ snd_ : Z)
  | RangeDict (d : gmap string Z).

(** [d[k]] *)
Definition getitem (d : gmap string Z) (k : string) : result Z :=
  match d !! k with
  | Some v => Ok v
  | None => Raise KeyError
  end.

(** The locals [start] and [length] are unbound until a branch assigns them;
    reading an unbound local raises [UnboundLocalError]. *)
Definition read_local (v : option Z) : result Z :=
  match v with
  | Some z => Ok z
  | None => Raise UnboundLocalError
  end.

Definition _normalize_byte_range_index (data : Buffer)
    (byte_range : ByteRangeRequest) : result (Z * Z) :=
  locals <~
    match byte_range with
    | RangeNone =>
        let start := 0 in
        let length := len data in
        Ok (Some start, Some length)
    | RangeTuple b0 b1 =>
        let start := b0 in
        let length := b1 - start in
        Ok (Some start, Some length)
    | RangeDict d =>
        if bool_decide (is_Some (d !! "offset")) then
          offset <~ getitem d "offset" ;;
          let length := len data - offset in
          Ok (None, Some length)
        else if bool_decide (is_Some (d !! "suffix")) then
          suffix <~ getitem d "suffix" ;;
          let start := len data - suffix in
          let length := len data - start in
          Ok (Some start, Some length)
        else Ok (None, None)
    end ;;
  (* return (start, length) *)
  start <~ read_local (fst locals) ;;
  length <~ read_local (snd locals) ;;
  Ok (start, length).

(** *** Vocabulary for further properties of [normalize_path] *)

(** The characters of [s] that are not separators, in order. *)
Fixpoint without_separators (s : string) : string :=
  match s with
  | EmptyString => EmptyString
  | String c rest =>
      if is_slash c || is_backslash c then without_separators rest
      else String c (without_separators rest)
  end.

(** A byte that [str(b, "ascii")] cannot decode. *)
Definition non_ascii (x : byte) : Prop := (128 <= Byte.to_N x)%N.

End Utils.

(** ** [zarr/v3/codecs/zstd.py] *)

(** JSON values, as [zarr.v3.common.JSON].  Python's [bool] is a subclass of
    [int], which [isinstance_int] below accounts for. *)
#[warnings="-register-all"]
Inductive JSON : Type :=
  | JNull
  | JBool (b : bool)
  | JInt (z : Z)
  | JStr (s : string)
  | JList (l : list JSON)
  | JDict (d : gmap string JSON).

Module Zstd.

(** [isinstance(data, int)] *)
Definition isinstance_int (data : JSON) : bool :=
  match data with
  | JInt _ | JBool _ => true
  | _ => false
  end.

(** The integer an [int] instance compares as ([True] is 1, [False] is 0). *)
Definition int_value (data : JSON) : Z :=
  match data with
  | JInt z => z
  | JBool b => if b then 1 else 0
  | _ => 0
  end.

Definition parse_zstd_level (data : JSON) : result JSON :=
  if isinstance_int data then
    if int_value data >=? 23 then Raise ValueError
    else Ok data
  else Raise TypeError.

Definition parse_checksum (data : JSON) : result bool :=
  match data with
  | JBool b => Ok b
  | _ => Raise TypeError
  end.

(** The frozen dataclass: its two fields. *)
Record ZstdCodec : Type := mkZstdCodec {
  level : JSON;
  checksum : bool
}.

(** The class attribute [is_fixed_size]. *)
Definition is_fixed_size : bool := true.

(** [ZstdCodec.__init__(self, *, level, checksum)] *)
Definition __init__ (level checksum : JSON) : result ZstdCodec :=
  level_parsed <~ parse_zstd_level level ;;
  checksum_parsed <~ parse_checksum checksum ;;
  Ok (mkZstdCodec level_parsed checksum_parsed).

(** [cls] called with keyword arguments: the keyword-only parameters are [level] (default [0])
    and [checksum] (default [False]); any other keyword is a [TypeError]. *)
Definition cls (kwargs : gmap string JSON) : result ZstdCodec :=
  if bool_decide (dom kwargs ⊆ ({[ "level"; "checksum" ]} : gset string)) then
    __init__ (default (JInt 0) (kwargs !! "level"))
             (default (JBool false) (kwargs !! "checksum"))
  else Raise TypeError.

(** Modelled from the spec: [zarr.v3.common.parse_named_configuration] is
    imported by the codec module but its source is not at hand.  The
    specification gives the shape it parses,
    [{"name": <codec-name-string>, "configuration": {<codec-specific keys>}}];
    the model accepts exactly a mapping of that shape whose name is the
    expected one and returns the name with the configuration mapping. *)
Definition parse_named_configuration (data : JSON) (expected_name : string)
    : result (string * gmap string JSON) :=
  match data with
  | JDict d =>
      match d !! "name", d !! "configuration" with
      | Some (JStr name), Some (JDict configuration) =>
          if String.eqb name expected_name then Ok (name, configuration)
          else Raise ValueError
      | Some (JStr _), Some _ => Raise TypeError
      | Some (JStr _), None => Raise ValueError
      | Some _, _ => Raise TypeError
      | None, _ => Raise ValueError
      end
  | _ => Raise TypeError
  end.

(** [ZstdCodec.from_dict] *)
Definition from_dict (data : JSON) : result ZstdCodec :=
  parsed <~ parse_named_configuration data "zstd" ;;
  let configuration_parsed := snd parsed in
  cls configuration_parsed.

(** [ZstdCodec.to_dict] *)
Definition to_dict (self : ZstdCodec) : JSON :=
  JDict {[ "name" := JStr "zstd";
           "configuration" :=
             JDict {[ "level" := level self;
                      "checksum" := JBool (checksum self) ]} ]}.

(** [ZstdCodec.compute_encoded_size] *)
Definition compute_encoded_size (self : ZstdCodec) (_input_byte_length : Z)
    : result Z :=
  Raise NotImplementedError.

End Zstd.

(** ** [zarr/storage/object_store.py] *)

Module ObjectStore.

(** *** The [obstore] interface

    [obstore] is an external library; the adapter is verified against its
    interface.  Reads do not change the backend, so each call is a function
    of its arguments, returning a value or raising. *)

(** [zarr.abc.store.ByteRequest]; [UnknownRequest] is any object that is
    none of the three request classes. *)
Inductive ByteRequest : Type :=
  | RangeByteRequest (start end_ : Z)
  | OffsetByteRequest (offset : Z)
  | SuffixByteRequest (suffix : Z)
  | UnknownRequest.

(** The [range] option of [obstore.get_async]: [{"offset": n}] or
    [{"suffix": n}]. *)
Inductive ObsRange : Type :=
  | OffsetRange (offset : Z)
  | SuffixRange (suffix : Z).

(** The response of [obstore.get_async]; reading its body may fail. *)
Record GetResult : Type := mkGetResult {
  bytes_async : result bytes
}.

Record ObjectMeta : Type := mkObjectMeta {
  meta_path : string;
  meta_size : Z
}.

Record ObstoreBackend : Type := mkBackend {
  (** [obs.get_async(store, key)] and
      [obs.get_async(store, key, options={"range": r})] *)
  get_async : string -> option ObsRange -> result GetResult;
  (** [obs.get_range_async(store, key, start=, end=)] *)
  get_range_async : string -> Z -> Z -> result bytes;
  (** [obs.get_ranges_async(store, path=, starts=, ends=)] *)
  get_ranges_async : string -> list Z -> list Z -> result (list bytes);
  (** [obs.head_async(store, key)] *)
  head_async : string -> result ObjectMeta
}.

Definition ALLOWED_EXCEPTIONS : list exn :=
  [FileNotFoundError; IsADirectoryError; NotADirectoryError].

(** *** [ObjectStore.get] *)

(** The body of the [try] block. *)
Definition get_body (store : ObstoreBackend) (key : string)
    (byte_range : option ByteRequest) : result (option Buffer) :=
  match byte_range with
  | None =>
      resp <~ get_async store key None ;;
      b <~ bytes_async resp ;;
      Ok (Some (from_bytes b))
  | Some (RangeByteRequest start end_) =>
      resp <~ get_range_async store key start end_ ;;
      Ok (Some (from_bytes resp))
  | Some (OffsetByteRequest offset) =>
      resp <~ get_async store key (Some (OffsetRange offset)) ;;
      b <~ bytes_async resp ;;
      Ok (Some (from_bytes b))
  | Some (SuffixByteRequest suffix) =>
      resp <~ get_async store key (Some (SuffixRange suffix)) ;;
      b <~ bytes_async resp ;;
      Ok (Some (from_bytes b))
  | Some UnknownRequest => Raise ValueError
  end.

Definition get (store : ObstoreBackend) (key : string)
    (byte_range : option ByteRequest) : result (option Buffer) :=
  try_except (get_body store key byte_range) ALLOWED_EXCEPTIONS (Ok None).

(** *** [ObjectStore.exists] *)

Definition exists_ (store : ObstoreBackend) (key : string) : result bool :=
  match head_async store key with
  | Raise e =>
      if except_matches [FileNotFoundError] e then Ok false else Raise e
  | Ok _ => Ok true
  end.

(** *** The batched read *)

Record _BoundedRequest : Type := mkBounded {
  bounded_index : nat;   (* original_request_index *)
  bounded_start : Z;
  bounded_end : Z
}.

Record _OtherRequest : Type := mkOther {
  other_index : nat;     (* original_request_index *)
  other_path : string;
  other_range : option ObsRange
}.

Record _Response : Type := mkResponse {
  original_request_index : nat;
  buffer : Buffer
}.

(** [zip(xs, ys, strict=True)] *)
Fixpoint zip_strict {A B : Type} (xs : list A) (ys : list B)
    : result (list (A * B)) :=
  match xs, ys with
  | [], [] => Ok []
  | x :: xs', y :: ys' => r <~ zip_strict xs' ys' ;; Ok ((x, y) :: r)
  | _, _ => Raise ValueError
  end.

Definition _make_bounded_requests (store : ObstoreBackend) (path : string)
    (requests : list _BoundedRequest) : result (list _Response) :=
  let starts := map bounded_start requests in
  let ends := map bounded_end requests in
  responses <~ get_ranges_async store path starts ends ;;
  pairs <~ zip_strict requests responses ;;
  Ok (map (fun '(request, response) =>
             mkResponse (bounded_index request) (from_bytes response))
          pairs).

Definition _make_other_request (store : ObstoreBackend)
    (request : _OtherRequest) : result (list _Response) :=
  resp <~ get_async store (other_path request) (other_range request) ;;
  buffer <~ bytes_async resp ;;
  Ok [mkResponse (other_index request) (from_bytes buffer)].

(** [per_file_bounded_requests]: a [defaultdict(list)], whose iteration order
    is the order in which its keys were first used. *)
Definition per_file : Type := list (string * list _BoundedRequest).

(** [d[path].append(r)] on the [defaultdict(list)] *)
Fixpoint dict_append (d : per_file) (path : string) (r : _BoundedRequest)
    : per_file :=
  match d with
  | [] => [(path, [r])]
  | (p, rs) :: d' =>
      if String.eqb p path then (p, (rs ++ [r])%list) :: d'
      else (p, rs) :: dict_append d' path r
  end.

(** The partitioning loop over [enumerate(key_ranges)], from index [idx]. *)
Fixpoint partition_requests (idx : nat)
    (key_ranges : list (string * option ByteRequest))
    (per_file_bounded_requests : per_file)
    (other_requests : list _OtherRequest)
    : result (per_file * list _OtherRequest) :=
  match key_ranges with
  | [] => Ok (per_file_bounded_requests, other_requests)
  | (path, byte_range) :: rest =>
      match byte_range with
      | None =>
          partition_requests (S idx) rest per_file_bounded_requests
            (other_requests ++ [mkOther idx path None])%list
      | Some (RangeByteRequest start end_) =>
          partition_requests (S idx) rest
            (dict_append per_file_bounded_requests path
               (mkBounded idx start end_))
            other_requests
      | Some (OffsetByteRequest offset) =>
          partition_requests (S idx) rest per_file_bounded_requests
            (other_requests ++ [mkOther idx path (Some (OffsetRange offset))])%list
      | Some (SuffixByteRequest suffix) =>
          partition_requests (S idx) rest per_file_bounded_requests
            (other_requests ++ [mkOther idx path (Some (SuffixRange suffix))])%list
      | Some UnknownRequest => Raise ValueError
      end
  end.

(** [await asyncio.gather( *futs )] without [return_exceptions]: the results
    in argument order when every awaitable succeeds, and otherwise an
    exception raised by one of them.  Which one, when several fail, depends
    on the schedule; the model reports the first in argument order. *)
Definition gather {A : Type} (futs : list (result A)) : result (list A) :=
  mapM (fun fut => fut) futs.

(** [buffers[i] = x] *)
Definition setitem {A : Type} (buffers : list A) (i : nat) (x : A)
    : result (list A) :=
  if bool_decide (i < length buffers)%nat then Ok (<[ i := x ]> buffers)
  else Raise IndexError.

(** The reassembly loop over one list of responses. *)
Fixpoint place_responses (responses : list _Response)
    (buffers : list (option Buffer)) : result (list (option Buffer)) :=
  match responses with
  | [] => Ok buffers
  | resp :: rest =>
      buffers' <~ setitem buffers (original_request_index resp)
                    (Some (buffer resp)) ;;
      place_responses rest buffers'
  end.

(** The reassembly loop over the gathered lists of responses. *)
Fixpoint place_all (gathered : list (list _Response))
    (buffers : list (option Buffer)) : result (list (option Buffer)) :=
  match gathered with
  | [] => Ok buffers
  | responses :: rest =>
      buffers' <~ place_responses responses buffers ;;
      place_all rest buffers'
  end.

Definition _get_partial_values (store : ObstoreBackend)
    (key_ranges : list (string * option ByteRequest))
    : result (list (option Buffer)) :=
  parts <~ partition_requests 0 key_ranges [] [] ;;
  let per_file_bounded_requests := fst parts in
  let other_requests := snd parts in
  let futs :=
    (map (fun '(path, bounded_ranges) =>
            _make_bounded_requests store path bounded_ranges)
         per_file_bounded_requests
     ++ map (fun request => _make_other_request store request) other_requests)%list in
  let buffers := replicate (length key_ranges) None in
  gathered <~ gather futs ;;
  place_all gathered buffers.

(** [ObjectStore.get_partial_values] *)
Definition get_partial_values (store : ObstoreBackend)
    (key_ranges : list (string * option ByteRequest))
    : result (list (option Buffer)) :=
  _get_partial_values store key_ranges.

(** What a strictly sequential [get] per request gives. *)
Definition sequential_get (store : ObstoreBackend)
    (key_ranges : list (string * option ByteRequest))
    : result (list (option Buffer)) :=
  mapM (fun '(key, byte_range) => get store key byte_range) key_ranges.

(** *** A backend to run the adapter on

    An in-memory stand-in for an [obstore] store: [objects] maps each stored
    key to its content; a key listed in [faults] fails every call with the
    given exception; any other key is reported missing. *)

(** [data[start:stop]] for non-negative bounds *)
Definition slice (data : bytes) (start stop : Z) : bytes :=
  take (Z.to_nat (stop - start)) (drop (Z.to_nat start) data).

Definition lookup_object (objects : gmap string bytes)
    (faults : gmap string exn) (key : string) : result bytes :=
  match faults !! key with
  | Some e => Raise e
  | None =>
      match objects !! key with
      | Some data => Ok data
      | None => Raise FileNotFoundError
      end
  end.

Definition memory_store (objects : gmap string bytes)
    (faults : gmap string exn) : ObstoreBackend :=
  let size (data : bytes) := Z.of_nat (length data) in
  let range_of (data : bytes) (start end_ : Z) := slice data start end_ in
  {| get_async key range :=
       data <~ lookup_object objects faults key ;;
       Ok (mkGetResult (Ok
         match range with
         | None => data
         | Some (OffsetRange offset) => slice data offset (size data)
         | Some (SuffixRange suffix) =>
             slice data (size data - suffix) (size data)
         end));
     get_range_async key start end_ :=
       data <~ lookup_object objects faults key ;;
       Ok (range_of data start end_);
     get_ranges_async key starts ends :=
       data <~ lookup_object objects faults key ;;
       pairs <~ zip_strict starts ends ;;
       Ok (map (fun '(start, end_) => range_of data start end_) pairs);
     head_async key :=
       data <~ lookup_object objects faults key ;;
       Ok (mkObjectMeta key (size data)) |}.

(** The five bytes of [b"hello"]. *)
Definition hello : bytes := [x68; x65; x6c; x6c; x6f].

(** A store holding one object, ["a"]; the key ["dir"] is shaped like a
    directory, the key ["locked"] is refused by the backend, and nothing
    else exists. *)
Definition example_store : ObstoreBackend :=
  memory_store {[ "a" := hello ]}
               {[ "dir" := IsADirectoryError;
                  "locked" := OtherError "PermissionError" ]}.

(** *** Vocabulary for the batched read *)

(** The request of the caller that an [_OtherRequest] stands for. *)
Definition request_of (range : option ObsRange) : option ByteRequest :=
  match range with
  | None => None
  | Some (OffsetRange offset) => Some (OffsetByteRequest offset)
  | Some (SuffixRange suffix) => Some (SuffixByteRequest suffix)
  end.

(** The multi-range call of the backend answers like its single-range
    call: when every range of a non-empty list can be read on its own, the
    multiplexed call returns the same contents in the same order. *)
Definition ranges_coherent (store : ObstoreBackend) : Prop :=
  forall (path : string) (ranges : list (Z * Z)) (bs : list bytes),
    ranges <> [] ->
    mapM (fun '(start, end_) => get_range_async store path start end_) ranges
      = Ok bs ->
    get_ranges_async store path (map fst ranges) (map snd ranges) = Ok bs.

(** The original indices held in the per-file groups. *)
Definition bounded_indices (d : per_file) : list nat :=
  concat (map (fun '(_, rs) => map bounded_index rs) d).

(** A response carries the buffer that [target] has at its index. *)
Definition fills (target : list (option Buffer)) (r : _Response) : Prop :=
  target !! original_request_index r = Some (Some (buffer r)).

(** Every slot of [bufs] is either still [None] or already that of
    [target]. *)
Definition partly_filled (target bufs : list (option Buffer)) : Prop :=
  length bufs = length target /\
  forall i : nat, bufs !! i = target !! i \/ bufs !! i = Some None.

(** Every group is non-empty and each of its requests is the bounded
    request found at its original index, on the group's path. *)
Definition bounded_ok (key_ranges : list (string * option ByteRequest))
    (d : per_file) : Prop :=
  forall p rs, In (p, rs) d ->
    rs <> [] /\
    forall r, In r rs ->
      key_ranges !! bounded_index r =
      Some (p, Some (RangeByteRequest (bounded_start r) (bounded_end r))).

(** Each standalone request is the request found at its original index. *)
Definition other_ok (key_ranges : list (string * option ByteRequest))
    (o : list _OtherRequest) : Prop :=
  forall r, In r o ->
    key_ranges !! other_index r =
    Some (other_path r, request_of (other_range r)).

(** The original index [i] is held by some group or standalone request. *)
Definition indexed (d : per_file) (o : list _OtherRequest) (i : nat) : Prop :=
  In i (bounded_indices d) \/ In i (map other_index o).

(** The backend reads of every request, one after the other, with no
    exception handling. *)
Definition get_bodies (store : ObstoreBackend)
    (key_ranges : list (string * option ByteRequest))
    : result (list (option Buffer)) :=
  mapM (fun '(key, byte_range) => get_body store key byte_range) key_ranges.

(** The response built for one bounded request and its content. *)
Definition mk_bounded_response (pr : _BoundedRequest * bytes) : _Response :=
  let '(request, response) := pr in
  mkResponse (bounded_index request) (from_bytes response).

(** *** What the backend answers to the call [get] makes

    [backend_raises store key byte_range e]: the backend call that [get]
    issues for this request, or the reading of its response, raises [e]. *)
Inductive backend_raises (store : ObstoreBackend) (key : string)
    : option ByteRequest -> exn -> Prop :=
  | raises_full_call e :
      get_async store key None = Raise e ->
      backend_raises store key None e
  | raises_full_read resp e :
      get_async store key None = Ok resp ->
      bytes_async resp = Raise e ->
      backend_raises store key None e
  | raises_range start end_ e :
      get_range_async store key start end_ = Raise e ->
      backend_raises store key (Some (RangeByteRequest start end_)) e
  | raises_offset_call offset e :
      get_async store key (Some (OffsetRange offset)) = Raise e ->
      backend_raises store key (Some (OffsetByteRequest offset)) e
  | raises_offset_read offset resp e :
      get_async store key (Some (OffsetRange offset)) = Ok resp ->
      bytes_async resp = Raise e ->
      backend_raises store key (Some (OffsetByteRequest offset)) e
  | raises_suffix_call suffix e :
      get_async store key (Some (SuffixRange suffix)) = Raise e ->
      backend_raises store key (Some (SuffixByteRequest suffix)) e
  | raises_suffix_read suffix resp e :
      get_async store key (Some (SuffixRange suffix)) = Ok resp ->
      bytes_async resp = Raise e ->
      backend_raises store key (Some (SuffixByteRequest suffix)) e.

(** The backend signals that [get] reads as "the key does not exist". *)
Definition not_found_signal (e : exn) : Prop :=
  e = FileNotFoundError \/ e = IsADirectoryError \/ e = NotADirectoryError.

(** *** Vocabulary for further properties of the reads *)

(** [backend_returns store key byte_range b]: the backend call that [get]
    issues for this request succeeds and the bytes read are [b]. *)
Inductive backend_returns (store : ObstoreBackend) (key : string)
    : option ByteRequest -> bytes -> Prop :=
  | returns_full resp b :
      get_async store key None = Ok resp ->
      bytes_async resp = Ok b ->
      backend_returns store key None b
  | returns_range start end_ b :
      get_range_async store key start end_ = Ok b ->
      backend_returns store key (Some (RangeByteRequest start end_)) b
  | returns_offset offset resp b :
      get_async store key (Some (OffsetRange offset)) = Ok resp ->
      bytes_async resp = Ok b ->
      backend_returns store key (Some (OffsetByteRequest offset)) b
  | returns_suffix suffix resp b :
      get_async store key (Some (SuffixRange suffix)) = Ok resp ->
      bytes_async resp = Ok b ->
      backend_returns store key (Some (SuffixByteRequest suffix)) b.

(** A request that is not a bounded range: it is read by a call of its own. *)
Definition standalone (byte_range : option ByteRequest) : Prop :=
  match byte_range with
  | Some (RangeByteRequest _ _) | Some UnknownRequest => False
  | _ => True
  end.

(** Within every group, and among the standalone requests, the original
    indices increase and stay below [idx]. *)
Definition ordered_below (idx : nat) (d : per_file) (o : list _OtherRequest) : Prop :=
  (forall p rs, In (p, rs) d ->
     StronglySorted lt (map bounded_index rs) /\
     Forall (fun i => (i < idx)%nat) (map bounded_index rs)) /\
  StronglySorted lt (map other_index o) /\
  Forall (fun i => (i < idx)%nat) (map other_index o).

(** A backend whose multi-range call answers with one range too few. *)
Definition truncating_store : ObstoreBackend :=
  {| get_async := get_async example_store;
     get_range_async := get_range_async example_store;
     get_ranges_async key starts ends :=
       responses <~ get_ranges_async example_store key starts ends ;;
       Ok (tail responses);
     head_async := head_async example_store |}.

End ObjectStore.

(** *** Listing: [list], [list_prefix], [list_dir] *)

Module Listing.
Import ObjectStore.

(** [obs.list(store)] and [obs.list(store, prefix=prefix)]: the stream of
    batches of object metadata, here read to its end. *)
Record ObstoreListing : Type := mkListing {
  obs_list : option string -> list (list ObjectMeta)
}.

(** [s[n:]] *)
Fixpoint str_drop (n : nat) (s : string) : string :=
  match n, s with
  | O, _ => s
  | S n', String _ rest => str_drop n' rest
  | S _, EmptyString => EmptyString
  end.

(** ["/" in s] *)
Fixpoint has_slash (s : string) : bool :=
  match s with
  | EmptyString => false
  | String c rest => Utils.is_slash c || has_slash rest
  end.

Definition _transform_list (list_stream : list (list ObjectMeta))
    : list string :=
  flat_map (fun batch => flat_map (fun item => [meta_path item]) batch)
           list_stream.

Definition _transform_list_dir (list_stream : list (list ObjectMeta))
    (prefix : string) : list string :=
  (* If one is not added to the length, all items will contain "/" *)
  let prefix_len := (String.length prefix + 1)%nat in
  flat_map (fun batch =>
    flat_map (fun item =>
      (* Yield this item if "/" does not exist after the prefix *)
      let item_path := str_drop prefix_len (meta_path item) in
      if negb (has_slash item_path) then [item_path] else [])
    batch)
  list_stream.

(** [ObjectStore.list] *)
Definition list_ (store : ObstoreListing) : list string :=
  _transform_list (obs_list store None).

(** [ObjectStore.list_prefix] *)
Definition list_prefix (store : ObstoreListing) (prefix : string) : list string :=
  _transform_list (obs_list store (Some prefix)).

(** [ObjectStore.list_dir] *)
Definition list_dir (store : ObstoreListing) (prefix : string) : list string :=
  _transform_list_dir (obs_list store (Some prefix)) prefix.

(** A listing backend over a fixed sequence of object paths, delivered in
    batches of two: with a non-empty prefix it lists the paths under
    [prefix/], with the empty prefix all of them. *)
Fixpoint starts_with (prefix s : string) : bool :=
  match prefix, s with
  | EmptyString, _ => true
  | String a p, String b s' => Ascii.eqb a b && starts_with p s'
  | String _ _, EmptyString => false
  end.

Fixpoint batches_of_two (l : list ObjectMeta) : list (list ObjectMeta) :=
  match l with
  | a :: b :: rest => [a; b] :: batches_of_two rest
  | [] => []
  | [a] => [[a]]
  end.

Definition listing_of (paths : list string) : ObstoreListing :=
  {| obs_list prefix :=
       let under :=
         match prefix with
         | None => paths
         | Some "" => paths
         | Some p => filter (fun path => Is_true (starts_with (p ++ "/") path)) paths
         end in
       batches_of_two (map (fun path => mkObjectMeta path 0) under) |}.

Definition example_listing : ObstoreListing :=
  listing_of ["a/b"; "a/c/d"; "a/e"; "b/f"; "top"].

End Listing.

(** *** Writing: [set], [set_if_not_exists], [delete] *)

Module Writing.
Import ObjectStore.

(** The [mode] argument of [obs.put_async]: the default, or ["create"]. *)
Inductive PutMode : Type :=
  | ModeOverwrite
  | ModeCreate.

(** The writing calls of [obstore] over a backend in state [S]: each call
    leaves the backend in a new state and returns or raises. *)
Record ObstoreWriter (S : Type) : Type := mkWriter {
  put_async : S -> string -> bytes -> PutMode -> S * result unit;
  delete_async : S -> string -> S * result unit
}.
Arguments put_async {S}.
Arguments delete_async {S}.

(** [obs.exceptions.AlreadyExistsError] *)
Definition AlreadyExistsError : exn := OtherError "AlreadyExistsError".

(** The error of a write on a read-only store. *)
Definition ReadOnlyError : exn := OtherError "ReadOnlyError".

(** Modelled from the spec: [Store._check_writable] belongs to the base class
    [zarr.abc.store.Store], whose source is not at hand.  The specification
    has writes on a store constructed with [read_only=true] fail with a
    read-only error. *)
Definition _check_writable (read_only : bool) : result unit :=
  if read_only then Raise ReadOnlyError else Ok tt.

(** [contextlib.suppress(classes)] around a backend call *)
Definition suppress {S : Type} (classes : list exn) (call : S * result unit)
    : S * result unit :=
  match call with
  | (st, Raise e) => if except_matches classes e then (st, Ok tt) else (st, Raise e)
  | ok => ok
  end.

(** [ObjectStore.set] *)
Definition set {S : Type} (store : ObstoreWriter S) (read_only : bool)
    (st : S) (key : string) (value : Buffer) : S * result unit :=
  match _check_writable read_only with
  | Raise e => (st, Raise e)
  | Ok _ =>
      let buf := to_bytes value in
      put_async store st key buf ModeOverwrite
  end.

(** [ObjectStore.set_if_not_exists] *)
Definition set_if_not_exists {S : Type} (store : ObstoreWriter S)
    (read_only : bool) (st : S) (key : string) (value : Buffer)
    : S * result unit :=
  match _check_writable read_only with
  | Raise e => (st, Raise e)
  | Ok _ =>
      let buf := to_bytes value in
      suppress [AlreadyExistsError] (put_async store st key buf ModeCreate)
  end.

(** [ObjectStore.delete] *)
Definition delete {S : Type} (store : ObstoreWriter S) (read_only : bool)
    (st : S) (key : string) : S * result unit :=
  match _check_writable read_only with
  | Raise e => (st, Raise e)
  | Ok _ => delete_async store st key
  end.

(** [ObjectStore.set_partial_values] *)
Definition set_partial_values {S : Type} (store : ObstoreWriter S)
    (st : S) (key_start_values : list (string * Z * bytes)) : S * result unit :=
  (st, Raise NotImplementedError).

(** The writing side of the in-memory backend: the state is the map of
    objects; a create-only put refuses a key that is present. *)
Definition memory_writer : ObstoreWriter (gmap string bytes) :=
  {| put_async objects key buf mode :=
       match mode, objects !! key with
       | ModeCreate, Some _ => (objects, Raise AlreadyExistsError)
       | _, _ => (<[ key := buf ]> objects, Ok tt)
       end;
     delete_async objects key := (base.delete key objects, Ok tt) |}.

End Writing.

(** ** [zarr/config.py] *)

Module Config.

(** The values the parsers of [zarr/config.py] are given: [None], a string,
    an [asyncio.AbstractEventLoop] instance, or an object of another type. *)
Inductive pyvalue : Type :=
  | PyNone
  | PyStr (s : string)
  | PyEventLoop (id : nat)
  | PyObject (type_name : string).

Definition parse_indexing_order (data : pyvalue) : result pyvalue :=
  match data with
  | PyStr s =>
      if String.eqb s "C" || String.eqb s "F" then Ok data
      else Raise ValueError
  | _ => Raise ValueError
  end.

Definition parse_asyncio_loop (data : pyvalue) : result pyvalue :=
  match data with
  | PyNone | PyEventLoop _ => Ok data
  | _ => Raise TypeError
  end.

(** An instance of the frozen dataclass: the attributes set on it. *)
Record RuntimeConfiguration : Type := mkRuntimeConfiguration {
  instance_attrs : gmap string pyvalue
}.

(** The class attributes: the default of the declared field. *)
Definition class_attrs : gmap string pyvalue := {[ "asyncio_loop" := PyNone ]}.

(** [RuntimeConfiguration.__init__]: [object.__setattr__] sets the attribute
    on the instance. *)
Definition __init__ (asyncio_loop : pyvalue) : result RuntimeConfiguration :=
  asyncio_loop_parsed <~ parse_asyncio_loop asyncio_loop ;;
  Ok (mkRuntimeConfiguration {[ "asyncio_loop_parsed" := asyncio_loop_parsed ]}).

(** [obj.name]: the instance attribute, else the class attribute. *)
Definition getattr (obj : RuntimeConfiguration) (name : string) : result pyvalue :=
  match instance_attrs obj !! name with
  | Some v => Ok v
  | None =>
      match class_attrs !! name with
      | Some v => Ok v
      | None => Raise (OtherError "AttributeError")
      end
  end.

End Config.

(** * Properties *)

(** ** The zstd codec *)

Section ZstdFacts.
Import Zstd.

Lemma parse_zstd_level_int (z : Z) :
  parse_zstd_level (JInt z) = if z >=? 23 then Raise ValueError else Ok (JInt z).
Proof. reflexivity. Qed.

Lemma init_int_bool (z : Z) (b : bool) :
  __init__ (JInt z) (JBool b) =
  if z >=? 23 then Raise ValueError else Ok (mkZstdCodec (JInt z) b).
Proof.
  unfold __init__. rewrite parse_zstd_level_int.
  destruct (z >=? 23); reflexivity.
Qed.

(** Whatever [__init__] accepts is stored unchanged, and is an [int]
    instance below 23 together with a [bool]. *)
Lemma init_inv (l c : JSON) (codec : ZstdCodec) :
  __init__ l c = Ok codec ->
  isinstance_int l = true /\ int_value l < 23 /\
  exists b, c = JBool b /\ codec = mkZstdCodec l b.
Proof.
  unfold __init__, parse_zstd_level.
  destruct (isinstance_int l) eqn:Hint; [|discriminate].
  destruct (int_value l >=? 23) eqn:Hlt; [discriminate|].
  destruct c; simpl; try discriminate.
  intros [= <-]. split; [reflexivity|]. split; [lia|]. eauto.
Qed.

Lemma to_dict_parsed (codec : ZstdCodec) :
  parse_named_configuration (to_dict codec) "zstd" =
  Ok ("zstd", {[ "level" := level codec; "checksum" := JBool (checksum codec) ]}).
Proof. reflexivity. Qed.

Lemma cls_level_checksum (l : JSON) (b : bool) :
  cls {[ "level" := l; "checksum" := JBool b ]} = __init__ l (JBool b).
Proof. reflexivity. Qed.

(** C6: for every codec [c] that construction accepts (an integer level in
    range and a boolean checksum), building a codec from the serialized
    configuration of [c] gives [c] back:
    [from_dict (to_dict c) = c]. *)
Theorem from_dict_to_dict (l c : JSON) (codec : ZstdCodec) :
  __init__ l c = Ok codec ->
  from_dict (to_dict codec) = Ok codec.
Proof.
  intros Hinit.
  destruct (init_inv _ _ _ Hinit) as (_ & _ & b & -> & ->).
  unfold from_dict. rewrite to_dict_parsed. simpl.
  rewrite cls_level_checksum. exact Hinit.
Qed.

Lemma from_dict_to_dict_witness :
  __init__ (JInt 5) (JBool true) = Ok (mkZstdCodec (JInt 5) true) /\
  from_dict (to_dict (mkZstdCodec (JInt 5) true)) = Ok (mkZstdCodec (JInt 5) true).
Proof.
  split; [reflexivity|].
  apply (from_dict_to_dict (JInt 5) (JBool true)). reflexivity.
Defined.

(** C7: constructing the codec with an integer level of 23 or above fails
    (with [ValueError], the configuration error of the code), and with an
    integer level from 0 to 22 inclusive it succeeds. *)
Theorem level_bound (z : Z) (b : bool) :
  (23 <= z -> __init__ (JInt z) (JBool b) = Raise ValueError) /\
  (0 <= z <= 22 -> __init__ (JInt z) (JBool b) = Ok (mkZstdCodec (JInt z) b)).
Proof.
  rewrite init_int_bool. split; intros H.
  - destruct (Z.geb_spec z 23); [reflexivity|lia].
  - destruct (Z.geb_spec z 23); [lia|reflexivity].
Qed.

Lemma level_bound_witness :
  __init__ (JInt 23) (JBool false) = Raise ValueError /\
  __init__ (JInt 22) (JBool false) = Ok (mkZstdCodec (JInt 22) false).
Proof.
  split.
  - apply (proj1 (level_bound 23 false)). lia.
  - apply (proj2 (level_bound 22 false)). lia.
Defined.

(** C8 (as the code has it): the class attribute [is_fixed_size] of the
    codec is [True], although the specification states it to be false. *)
Theorem is_fixed_size_true : is_fixed_size = true.
Proof. reflexivity. Qed.

(** The encoded size is not computable ahead of compression, which is what
    a codec that is not of fixed size answers. *)
Lemma compute_encoded_size_unsupported (codec : ZstdCodec) (n : Z) :
  compute_encoded_size codec n = Raise NotImplementedError.
Proof. reflexivity. Qed.

(** C9: only the upper bound of the level is enforced: construction succeeds
    for every integer level below 23, negative levels included. *)
Theorem level_lower_bound_unchecked (z : Z) (b : bool) :
  z < 23 -> __init__ (JInt z) (JBool b) = Ok (mkZstdCodec (JInt z) b).
Proof.
  intros H. rewrite init_int_bool.
  destruct (Z.geb_spec z 23); [lia|reflexivity].
Qed.

Lemma level_lower_bound_unchecked_witness :
  -7 < 23 /\ __init__ (JInt (-7)) (JBool true) = Ok (mkZstdCodec (JInt (-7)) true).
Proof.
  split; [lia|]. apply (level_lower_bound_unchecked (-7) true). lia.
Defined.

End ZstdFacts.

(** ** The object-store adapter *)

Section ObjectStoreFacts.
Import ObjectStore.

Lemma allowed_iff (e : exn) :
  except_matches ALLOWED_EXCEPTIONS e = true <-> not_found_signal e.
Proof.
  unfold not_found_signal. split.
  - destruct e; simpl; try discriminate; auto.
  - intros [-> | [-> | ->]]; reflexivity.
Qed.

Lemma only_file_not_found (e : exn) :
  except_matches [FileNotFoundError] e = true <-> e = FileNotFoundError.
Proof.
  split.
  - destruct e; simpl; try discriminate; auto.
  - intros ->. reflexivity.
Qed.

(** What the [try] body of [get] does when the backend raises. *)
Lemma get_body_raises (store : ObstoreBackend) (key : string)
    (byte_range : option ByteRequest) (e : exn) :
  backend_raises store key byte_range e ->
  get_body store key byte_range = Raise e.
Proof.
  intros H; destruct H; simpl;
    repeat match goal with
           | Hc : _ = _ |- _ => rewrite Hc; simpl
           end; reflexivity.
Qed.

(** The outcome of [get] when the backend raises [e]. *)
Lemma get_when_backend_raises (store : ObstoreBackend) (key : string)
    (byte_range : option ByteRequest) (e : exn) :
  backend_raises store key byte_range e ->
  get store key byte_range =
  if except_matches ALLOWED_EXCEPTIONS e then Ok None else Raise e.
Proof.
  intros H. unfold get. rewrite (get_body_raises _ _ _ _ H). reflexivity.
Qed.

(** C2: whenever the backend signals that the key does not exist (not found,
    and the widened "is a directory" and "not a directory" signals), [get]
    returns [None] instead of raising; any other backend failure is raised
    to the caller unchanged. *)
Theorem get_not_found_is_None (store : ObstoreBackend) (key : string)
    (byte_range : option ByteRequest) (e : exn) :
  backend_raises store key byte_range e ->
  (not_found_signal e -> get store key byte_range = Ok None) /\
  (~ not_found_signal e -> get store key byte_range = Raise e).
Proof.
  intros H. rewrite (get_when_backend_raises _ _ _ _ H).
  destruct (except_matches ALLOWED_EXCEPTIONS e) eqn:Ha.
  - apply allowed_iff in Ha. split; [reflexivity | contradiction].
  - split; [|reflexivity].
    intros Hs. apply allowed_iff in Hs. congruence.
Qed.

Lemma get_not_found_is_None_witness :
  get example_store "missing" None = Ok None /\
  get example_store "dir" (Some (OffsetByteRequest 1)) = Ok None /\
  get example_store "locked" (Some (RangeByteRequest 0 2)) =
    Raise (OtherError "PermissionError").
Proof.
  split; [|split].
  - apply (get_not_found_is_None example_store "missing" None FileNotFoundError).
    + apply raises_full_call. reflexivity.
    + left. reflexivity.
  - apply (get_not_found_is_None example_store "dir"
             (Some (OffsetByteRequest 1)) IsADirectoryError).
    + apply raises_offset_call. reflexivity.
    + right. left. reflexivity.
  - apply (get_not_found_is_None example_store "locked"
             (Some (RangeByteRequest 0 2)) (OtherError "PermissionError")).
    + apply raises_range. reflexivity.
    + intros [H | [H | H]]; discriminate H.
Defined.

(** [get] never raises one of the signals it reads as absence. *)
Lemma get_never_raises_not_found (store : ObstoreBackend) (key : string)
    (byte_range : option ByteRequest) (e : exn) :
  get store key byte_range = Raise e -> ~ not_found_signal e.
Proof.
  unfold get, try_except.
  destruct (get_body store key byte_range) as [v | e']; [discriminate|].
  destruct (except_matches ALLOWED_EXCEPTIONS e') eqn:Ha; [discriminate|].
  intros [= <-] Hs. apply allowed_iff in Hs. congruence.
Qed.

(** C10: [exists] answers false only on the plain not-found signal and true
    when the backend finds the key; every other signal is raised.  Unlike
    [get] it does not widen "is a directory" and "not a directory" to
    absence: on a key for which the backend gives such a signal, [exists]
    raises it while [get] returns [None]. *)
Theorem exists_not_widened (store : ObstoreBackend) (key : string) :
  (head_async store key = Raise FileNotFoundError ->
     exists_ store key = Ok false) /\
  (forall meta, head_async store key = Ok meta ->
     exists_ store key = Ok true) /\
  (forall e, e <> FileNotFoundError -> head_async store key = Raise e ->
     exists_ store key = Raise e) /\
  (forall e, e = IsADirectoryError \/ e = NotADirectoryError ->
     head_async store key = Raise e ->
     get_async store key None = Raise e ->
     exists_ store key = Raise e /\ get store key None = Ok None).
Proof.
  unfold exists_. split; [|split; [|split]].
  - intros ->. reflexivity.
  - intros meta ->. reflexivity.
  - intros e Hne ->.
    destruct (except_matches [FileNotFoundError] e) eqn:Hm; [|reflexivity].
    apply only_file_not_found in Hm. contradiction.
  - intros e He Hhead Hget. split.
    + rewrite Hhead. destruct He as [-> | ->]; reflexivity.
    + rewrite (get_when_backend_raises store key None e).
      * destruct He as [-> | ->]; reflexivity.
      * apply raises_full_call. exact Hget.
Qed.

Lemma exists_not_widened_witness :
  exists_ example_store "missing" = Ok false /\
  exists_ example_store "a" = Ok true /\
  exists_ example_store "locked" = Raise (OtherError "PermissionError") /\
  exists_ example_store "dir" = Raise IsADirectoryError /\
  get example_store "dir" None = Ok None.
Proof.
  destruct (exists_not_widened example_store "missing") as (H1 & _).
  destruct (exists_not_widened example_store "a") as (_ & H2 & _).
  destruct (exists_not_widened example_store "locked") as (_ & _ & H3 & _).
  destruct (exists_not_widened example_store "dir") as (_ & _ & _ & H4).
  split; [|split; [|split]].
  - apply H1. reflexivity.
  - apply (H2 (mkObjectMeta "a" 5)). reflexivity.
  - apply H3; [discriminate | reflexivity].
  - apply (H4 IsADirectoryError); [left; reflexivity | reflexivity | reflexivity].
Defined.

(** C1 (as the code has it): a batch that names a key the backend does not
    have fails as a whole with the backend's not-found exception, where a
    sequential [get] per request gives [None] at that position and the
    buffers at the others. *)
Theorem get_partial_values_missing_key_raises :
  let key_ranges :=
    [("a", Some (RangeByteRequest 0 2)); ("missing", None); ("a", None)] in
  get_partial_values example_store key_ranges = Raise FileNotFoundError /\
  sequential_get example_store key_ranges =
    Ok [Some (from_bytes [x68; x65]); None; Some (from_bytes hello)].
Proof. split; reflexivity. Qed.

End ObjectStoreFacts.

(** ** The batched read when the backend does not fail *)

Section PartialValuesFacts.
Import ObjectStore.

(** *** The error monad over lists *)

Lemma mapM_app {A B} (f : A -> result B) (l1 l2 : list A) :
  mapM f (l1 ++ l2)%list =
  (a <~ mapM f l1 ;; b <~ mapM f l2 ;; Ok (a ++ b)%list).
Proof.
  induction l1 as [|x l1 IH]; simpl.
  - destruct (mapM f l2); reflexivity.
  - destruct (f x); simpl; [|reflexivity]. rewrite IH.
    destruct (mapM f l1); simpl; [|reflexivity].
    destruct (mapM f l2); reflexivity.
Qed.

Lemma mapM_map {A B C} (g : A -> B) (f : B -> result C) (l : list A) :
  mapM f (map g l) = mapM (fun a => f (g a)) l.
Proof.
  induction l as [|x l IH]; simpl; [reflexivity|]. rewrite IH. reflexivity.
Qed.

Lemma mapM_lookup {A B} (f : A -> result B) (l : list A) (ys : list B) :
  mapM f l = Ok ys ->
  length ys = length l /\
  forall i x, l !! i = Some x -> exists y, f x = Ok y /\ ys !! i = Some y.
Proof.
  revert ys. induction l as [|a l IH]; simpl; intros ys H.
  - injection H as <-. split; [reflexivity|]. intros i x Hx. discriminate.
  - destruct (f a) as [b|] eqn:Hb; simpl in H; [|discriminate].
    destruct (mapM f l) as [bs|] eqn:Hbs; simpl in H; [|discriminate].
    injection H as <-. destruct (IH bs eq_refl) as [Hlen Hl].
    split; [simpl; congruence|].
    intros [|i] x Hx; simpl in *.
    + injection Hx as <-. eauto.
    + apply Hl, Hx.
Qed.

Lemma mapM_ext_in {A B} (f g : A -> result B) (l : list A) :
  (forall x, In x l -> f x = g x) -> mapM f l = mapM g l.
Proof.
  induction l as [|a l IH]; simpl; intros H; [reflexivity|].
  rewrite (H a) by auto. rewrite IH by auto. reflexivity.
Qed.

(** *** Reassembly *)

Lemma place_responses_app (rs1 rs2 : list _Response) (bufs : list (option Buffer)) :
  place_responses (rs1 ++ rs2)%list bufs =
  (bufs' <~ place_responses rs1 bufs ;; place_responses rs2 bufs').
Proof.
  revert bufs. induction rs1 as [|r rs1 IH]; intros bufs; simpl; [reflexivity|].
  destruct (setitem bufs (original_request_index r) (Some (buffer r)));
    simpl; [apply IH | reflexivity].
Qed.

Lemma place_all_concat (gathered : list (list _Response)) (bufs : list (option Buffer)) :
  place_all gathered bufs = place_responses (concat gathered) bufs.
Proof.
  revert bufs. induction gathered as [|rs g IH]; intros bufs; simpl; [reflexivity|].
  rewrite place_responses_app.
  destruct (place_responses rs bufs); simpl; [apply IH | reflexivity].
Qed.

(** Placing responses that carry the buffers of [target] keeps the slots
    already right, and makes the slot of every response right. *)
Lemma place_responses_fills (target : list (option Buffer)) (rs : list _Response) :
  Forall (fills target) rs ->
  forall bufs, partly_filled target bufs ->
  exists bufs', place_responses rs bufs = Ok bufs' /\ partly_filled target bufs' /\
    (forall i : nat, bufs !! i = target !! i -> bufs' !! i = target !! i) /\
    (forall r, In r rs ->
       bufs' !! original_request_index r = target !! original_request_index r).
Proof.
  induction 1 as [|r rs Hr Hrs IH]; intros bufs [Hlen Hpart].
  - exists bufs. simpl. repeat split; auto. intros r [].
  - unfold fills in Hr. set (idx := original_request_index r) in *.
    assert (Hlt : (idx < length bufs)%nat).
    { rewrite Hlen. apply lookup_lt_is_Some. eauto. }
    assert (Hset : forall i : nat,
               <[idx := Some (buffer r)]> bufs !! i =
               if decide (idx = i) then Some (Some (buffer r)) else bufs !! i).
    { intros i. destruct (decide (idx = i)) as [<- | Hne].
      - apply list_lookup_insert_eq, Hlt.
      - apply list_lookup_insert_ne, Hne. }
    destruct (IH (<[idx := Some (buffer r)]> bufs)) as (bufs' & Hplace & Hp' & Hkeep & Hcov).
    { split; [rewrite length_insert; exact Hlen|].
      intros i. rewrite Hset. destruct (decide (idx = i)) as [<- | _].
      - left. symmetry. exact Hr.
      - apply Hpart. }
    exists bufs'. split; [|split; [exact Hp'|split]].
    + simpl. fold idx. unfold setitem.
      rewrite bool_decide_eq_true_2 by exact Hlt. simpl. exact Hplace.
    + intros i Hi. apply Hkeep. rewrite Hset.
      destruct (decide (idx = i)) as [<- | _]; [symmetry; exact Hr | exact Hi].
    + intros r' [<- | Hin]; [|apply Hcov, Hin].
      fold idx. apply Hkeep. rewrite Hset.
      destruct (decide (idx = idx)); [symmetry; exact Hr | contradiction].
Qed.

Lemma partly_filled_replicate (target : list (option Buffer)) :
  partly_filled target (replicate (length target) None).
Proof.
  split; [apply length_replicate|]. intros i.
  destruct (decide (i < length target)%nat) as [Hlt | Hge].
  - right. apply lookup_replicate_2, Hlt.
  - left. rewrite (lookup_ge_None_2 target) by lia.
    apply lookup_replicate_None. lia.
Qed.

(** Responses that carry the buffers of [target] and hold every index
    reassemble to [target]. *)
Lemma place_all_target (target : list (option Buffer)) (gathered : list (list _Response)) :
  Forall (fills target) (concat gathered) ->
  (forall i : nat, (i < length target)%nat ->
     In i (map original_request_index (concat gathered))) ->
  place_all gathered (replicate (length target) None) = Ok target.
Proof.
  intros Hfill Hcov. rewrite place_all_concat.
  destruct (place_responses_fills target _ Hfill _ (partly_filled_replicate target))
    as (bufs' & -> & [Hlen Hp] & _ & Hall).
  f_equal. apply list_eq. intros i.
  destruct (decide (i < length target)%nat) as [Hlt | Hge].
  - apply Hcov in Hlt. apply in_map_iff in Hlt as (r & <- & Hr). apply Hall, Hr.
  - rewrite (lookup_ge_None_2 target), (lookup_ge_None_2 bufs') by lia.
    reflexivity.
Qed.

(** *** Partitioning *)

Lemma dict_append_In (d : per_file) (path : string) (r : _BoundedRequest)
    (p : string) (rs : list _BoundedRequest) (r' : _BoundedRequest) :
  In (p, rs) (dict_append d path r) -> In r' rs ->
  (exists rs0, In (p, rs0) d /\ In r' rs0) \/ (p = path /\ r' = r).
Proof.
  induction d as [|[p0 rs0] d IH]; simpl.
  - intros [[= <- <-] | []] [<- | []]. right. auto.
  - destruct (String.eqb_spec p0 path) as [-> | Hne].
    + intros [[= <- <-] | Hin] Hr'.
      * apply in_app_or in Hr' as [Hold | [<- | []]].
        -- left. exists rs0. auto.
        -- right. auto.
      * left. exists rs. auto.
    + intros [[= <- <-] | Hin] Hr'.
      * left. exists rs0. auto.
      * destruct (IH Hin Hr') as [(rs1 & H1 & H2) | Hnew].
        -- left. exists rs1. auto.
        -- right. exact Hnew.
Qed.

Lemma dict_append_nonempty (d : per_file) (path : string) (r : _BoundedRequest)
    (p : string) (rs : list _BoundedRequest) :
  (forall p0 rs0, In (p0, rs0) d -> rs0 <> []) ->
  In (p, rs) (dict_append d path r) -> rs <> [].
Proof.
  induction d as [|[p0 rs0] d IH]; simpl; intros Hd.
  - intros [[= <- <-] | []]. discriminate.
  - destruct (String.eqb p0 path).
    + intros [[= <- <-] | Hin]; [|eapply Hd; eauto].
      intros Hnil. apply app_eq_nil in Hnil as [_ Hnil]. discriminate.
    + intros [[= <- <-] | Hin]; [eapply Hd; eauto|].
      apply IH; [|exact Hin]. intros p1 rs1 H1. eapply Hd. right. exact H1.
Qed.

Lemma bounded_indices_cons (p : string) (rs : list _BoundedRequest) (d : per_file) :
  bounded_indices ((p, rs) :: d) = (map bounded_index rs ++ bounded_indices d)%list.
Proof. reflexivity. Qed.

Lemma dict_append_indices (d : per_file) (path : string) (r : _BoundedRequest)
    (i : nat) :
  In i (bounded_indices d) \/ i = bounded_index r ->
  In i (bounded_indices (dict_append d path r)).
Proof.
  induction d as [|[p0 rs0] d IH]; simpl dict_append.
  - intros [[] | ->]. left. reflexivity.
  - destruct (String.eqb p0 path); rewrite !bounded_indices_cons, !in_app_iff.
    + rewrite map_app, in_app_iff. simpl. intuition.
    + intuition.
Qed.

(** The partitioning loop succeeds when no request is of an unknown class,
    keeps each request at its original index, and loses none. *)
Lemma partition_requests_inv (key_ranges : list (string * option ByteRequest))
    (rest : list (string * option ByteRequest)) :
  forall (pre : list (string * option ByteRequest)) (d : per_file)
         (o : list _OtherRequest),
  key_ranges = (pre ++ rest)%list ->
  Forall (fun kr => snd kr <> Some UnknownRequest) rest ->
  bounded_ok key_ranges d -> other_ok key_ranges o ->
  (forall i : nat, (i < length pre)%nat -> indexed d o i) ->
  exists d' o',
    partition_requests (length pre) rest d o = Ok (d', o') /\
    bounded_ok key_ranges d' /\ other_ok key_ranges o' /\
    (forall i : nat, (i < length key_ranges)%nat -> indexed d' o' i).
Proof.
  induction rest as [|[path br] rest IH]; intros pre d o Heq Hknown Hd Ho Hidx.
  - exists d, o. simpl.
    split; [reflexivity|]. split; [exact Hd|]. split; [exact Ho|].
    intros i Hi. apply Hidx. rewrite Heq, app_nil_r in Hi. exact Hi.
  - assert (Hhere : key_ranges !! length pre = Some (path, br)).
    { rewrite Heq. apply list_lookup_middle. reflexivity. }
    assert (Heq' : key_ranges = ((pre ++ [(path, br)]) ++ rest)%list).
    { rewrite <- app_assoc. exact Heq. }
    assert (Hlen : length (pre ++ [(path, br)]) = S (length pre)).
    { rewrite length_app. simpl. lia. }
    inversion Hknown as [|? ? Hbr Hknown']; subst.
    specialize (IH (pre ++ [(path, br)])%list).
    rewrite Hlen in IH.
    assert (Hother : forall range, request_of range = br ->
              other_ok ((pre ++ (path, br) :: rest)%list)
                (o ++ [mkOther (length pre) path range])%list /\
              forall i : nat, (i < S (length pre))%nat ->
                indexed d (o ++ [mkOther (length pre) path range])%list i).
    { intros range Hrange. split.
      - intros r Hr. apply in_app_or in Hr as [Hr | [<- | []]]; [apply Ho, Hr|].
        simpl. rewrite Hrange. exact Hhere.
      - intros i Hi. unfold indexed. rewrite map_app, in_app_iff. simpl.
        destruct (decide (i = length pre)) as [-> | Hne]; [auto|].
        destruct (Hidx i ltac:(lia)) as [H | H]; auto. }
    destruct br as [[start end_ | offset | suffix | ] | ]; simpl.
    + apply IH; auto.
      * intros p rs Hin. split.
        { eapply dict_append_nonempty; [|exact Hin].
          intros p0 rs0 H0. apply (Hd p0 rs0 H0). }
        intros r Hr.
        destruct (dict_append_In _ _ _ _ _ _ Hin Hr) as [(rs0 & H1 & H2) | [-> ->]].
        -- eapply Hd; eauto.
        -- simpl. exact Hhere.
      * intros i Hi. unfold indexed.
        destruct (decide (i = length pre)) as [-> | Hne].
        -- left. apply dict_append_indices. right. reflexivity.
        -- destruct (Hidx i ltac:(lia)) as [H | H]; [|right; exact H].
           left. apply dict_append_indices. left. exact H.
    + destruct (Hother (Some (OffsetRange offset)) eq_refl). apply IH; auto.
    + destruct (Hother (Some (SuffixRange suffix)) eq_refl). apply IH; auto.
    + simpl in Hbr. congruence.
    + destruct (Hother None eq_refl). apply IH; auto.
Qed.

(** *** The backend calls *)

Lemma bounded_responses (store : ObstoreBackend) (target : list (option Buffer))
    (p : string) (rs : list _BoundedRequest) :
  (forall r, In r rs -> exists b,
      get_range_async store p (bounded_start r) (bounded_end r) = Ok b /\
      target !! bounded_index r = Some (Some (from_bytes b))) ->
  exists bs pairs,
    mapM (fun '(start, end_) => get_range_async store p start end_)
         (map (fun r => (bounded_start r, bounded_end r)) rs) = Ok bs /\
    zip_strict rs bs = Ok pairs /\
    Forall (fills target) (map mk_bounded_response pairs) /\
    map original_request_index (map mk_bounded_response pairs) =
      map bounded_index rs.
Proof.
  induction rs as [|r rs IH]; intros H.
  - exists [], []. simpl. repeat split; constructor.
  - destruct (H r (or_introl eq_refl)) as (b & Hb & Ht).
    destruct IH as (bs & pairs & Hbs & Hzip & Hfill & Hidx).
    { intros r' Hr'. apply H. right. exact Hr'. }
    exists (b :: bs), ((r, b) :: pairs). simpl.
    rewrite Hb, Hbs, Hzip. simpl. repeat split.
    + constructor; [exact Ht | exact Hfill].
    + f_equal. exact Hidx.
Qed.

Lemma get_bodies_lookup (store : ObstoreBackend)
    (key_ranges : list (string * option ByteRequest))
    (target : list (option Buffer)) (i : nat) (key : string)
    (byte_range : option ByteRequest) :
  get_bodies store key_ranges = Ok target ->
  key_ranges !! i = Some (key, byte_range) ->
  exists v, get_body store key byte_range = Ok v /\ target !! i = Some v.
Proof.
  intros H Hi. apply mapM_lookup in H as [_ H].
  apply (H i (key, byte_range) Hi).
Qed.

Lemma bounded_future (store : ObstoreBackend)
    (key_ranges : list (string * option ByteRequest))
    (target : list (option Buffer)) (p : string) (rs : list _BoundedRequest) :
  ranges_coherent store ->
  get_bodies store key_ranges = Ok target ->
  rs <> [] ->
  (forall r, In r rs ->
     key_ranges !! bounded_index r =
     Some (p, Some (RangeByteRequest (bounded_start r) (bounded_end r)))) ->
  exists resps,
    _make_bounded_requests store p rs = Ok resps /\
    Forall (fills target) resps /\
    map original_request_index resps = map bounded_index rs.
Proof.
  intros Hco Hget Hne Hrs.
  destruct (bounded_responses store target p rs) as (bs & pairs & Hbs & Hzip & Hfill & Hidx).
  { intros r Hr.
    destruct (get_bodies_lookup _ _ _ _ _ _ Hget (Hrs r Hr)) as (v & Hv & Ht).
    simpl in Hv.
    destruct (get_range_async store p (bounded_start r) (bounded_end r)) as [b|];
      [|discriminate].
    simpl in Hv. injection Hv as <-. eauto. }
  exists (map mk_bounded_response pairs). split; [|auto].
  unfold _make_bounded_requests.
  replace (map bounded_start rs)
    with (map fst (map (fun r => (bounded_start r, bounded_end r)) rs))
    by (rewrite map_map; reflexivity).
  replace (map bounded_end rs)
    with (map snd (map (fun r => (bounded_start r, bounded_end r)) rs))
    by (rewrite map_map; reflexivity).
  rewrite (Hco _ _ bs); [|destruct rs; [contradiction | discriminate] | exact Hbs].
  simpl. rewrite Hzip. reflexivity.
Qed.

Lemma other_future (store : ObstoreBackend)
    (key_ranges : list (string * option ByteRequest))
    (target : list (option Buffer)) (r : _OtherRequest) :
  get_bodies store key_ranges = Ok target ->
  key_ranges !! other_index r = Some (other_path r, request_of (other_range r)) ->
  exists resps,
    _make_other_request store r = Ok resps /\
    Forall (fills target) resps /\
    map original_request_index resps = [other_index r].
Proof.
  intros Hget Hr.
  destruct (get_bodies_lookup _ _ _ _ _ _ Hget Hr) as (v & Hv & Ht).
  unfold _make_other_request.
  assert (Hcall : exists resp b,
            get_async store (other_path r) (other_range r) = Ok resp /\
            bytes_async resp = Ok b /\ v = Some (from_bytes b)).
  { destruct (other_range r) as [[offset | suffix] | ]; simpl in Hv;
      (destruct (get_async store (other_path r) _) as [resp|]; [|discriminate]);
      simpl in Hv;
      (destruct (bytes_async resp) as [b|] eqn:Hb; [|discriminate]);
      simpl in Hv; injection Hv as <-; eauto. }
  destruct Hcall as (resp & b & -> & Hb & ->). simpl. rewrite Hb. simpl.
  eexists. split; [reflexivity|]. split; [|reflexivity].
  constructor; [exact Ht | constructor].
Qed.

(** Gathering calls that each succeed with the right buffers. *)
Lemma mapM_collect {X : Type} (f : X -> result (list _Response))
    (idxs : X -> list nat) (target : list (option Buffer)) (l : list X) :
  (forall x, In x l -> exists resps,
      f x = Ok resps /\ Forall (fills target) resps /\
      map original_request_index resps = idxs x) ->
  exists g, mapM f l = Ok g /\ Forall (fills target) (concat g) /\
    map original_request_index (concat g) = concat (map idxs l).
Proof.
  induction l as [|x l IH]; intros H.
  - exists []. simpl. repeat split. constructor.
  - destruct (H x (or_introl eq_refl)) as (resps & Hx & Hfill & Hidx).
    destruct IH as (g & Hg & Hgfill & Hgidx).
    { intros x' Hx'. apply H. right. exact Hx'. }
    exists (resps :: g). simpl. rewrite Hx, Hg. simpl. repeat split.
    + apply Forall_app. auto.
    + rewrite map_app, Hidx, Hgidx. reflexivity.
Qed.

Lemma get_bodies_known (store : ObstoreBackend)
    (key_ranges : list (string * option ByteRequest))
    (target : list (option Buffer)) :
  get_bodies store key_ranges = Ok target ->
  Forall (fun kr => snd kr <> Some UnknownRequest) key_ranges.
Proof.
  intros H. apply Forall_forall. intros [key br] Hin Hbr. simpl in Hbr. subst br.
  apply list_elem_of_lookup in Hin as [i Hi].
  destruct (get_bodies_lookup _ _ _ _ _ _ H Hi) as (v & Hv & _). discriminate.
Qed.

(** X24: when every backend read succeeds, and the multi-range call of the
    backend agrees with its single-range call, the batched read returns a
    list of the length and in the order of the input whose elements are
    what one [get] per request returns. *)
Theorem get_partial_values_sequential (store : ObstoreBackend)
    (key_ranges : list (string * option ByteRequest))
    (target : list (option Buffer)) :
  ranges_coherent store ->
  get_bodies store key_ranges = Ok target ->
  get_partial_values store key_ranges = Ok target /\
  sequential_get store key_ranges = Ok target.
Proof.
  intros Hco Hget. split.
  - unfold get_partial_values, _get_partial_values.
    destruct (partition_requests_inv key_ranges key_ranges [] [] [])
      as (d & o & Hpart & Hd & Ho & Hidx).
    + reflexivity.
    + eapply get_bodies_known, Hget.
    + intros p rs [].
    + intros r [].
    + simpl. intros i Hi. lia.
    + simpl in Hpart. rewrite Hpart. simpl. unfold gather. rewrite mapM_app, !mapM_map.
      destruct (mapM_collect
                  (fun x : string * list _BoundedRequest =>
                     let '(path, bounded_ranges) := x in
                     _make_bounded_requests store path bounded_ranges)
                  (fun x => map bounded_index (snd x)) target d)
        as (gd & Hgd & Hfd & Hid).
      { intros [p rs] Hin. destruct (Hd p rs Hin) as [Hne Hrs].
        eapply bounded_future; eauto. }
      destruct (mapM_collect (fun request => _make_other_request store request)
                  (fun r => [other_index r]) target o)
        as (go & Hgo & Hfo & Hio).
      { intros r Hin. eapply other_future; eauto. }
      rewrite Hgd, Hgo. simpl.
      destruct (mapM_lookup _ _ _ Hget) as [Hlen _]. rewrite <- Hlen.
      apply place_all_target.
      * rewrite concat_app. apply Forall_app. auto.
      * intros i Hi. rewrite concat_app, map_app, in_app_iff, Hid, Hio.
        rewrite Hlen in Hi. destruct (Hidx i Hi) as [H | H].
        -- left. unfold bounded_indices in H.
           erewrite map_ext; [exact H|]. intros [? ?]. reflexivity.
        -- right. clear -H. induction o as [|r o IH]; simpl in *; tauto.
  - unfold sequential_get. rewrite <- Hget. unfold get_bodies.
    apply mapM_ext_in. intros [key br] Hin.
    apply (proj2 (list_elem_of_In _ _)) in Hin.
    apply list_elem_of_lookup in Hin as [i Hi].
    destruct (get_bodies_lookup _ _ _ _ _ _ Hget Hi) as (v & Hv & _).
    unfold get. rewrite Hv. reflexivity.
Qed.

(** *** The in-memory backend *)

Lemma zip_strict_fst_snd {A B : Type} (l : list (A * B)) :
  zip_strict (map fst l) (map snd l) = Ok l.
Proof.
  induction l as [|[a b] l IH]; simpl; [reflexivity|]. rewrite IH. reflexivity.
Qed.

Lemma mapM_pure {A B : Type} (g : A -> B) (l : list A) :
  mapM (fun a => Ok (g a)) l = Ok (map g l).
Proof.
  induction l as [|a l IH]; simpl; [reflexivity|]. rewrite IH. reflexivity.
Qed.

Lemma memory_store_coherent (objects : gmap string bytes) (faults : gmap string exn) :
  ranges_coherent (memory_store objects faults).
Proof.
  intros path ranges bs Hne Hbs. simpl in *.
  destruct (lookup_object objects faults path) as [data | e]; simpl in *.
  - rewrite zip_strict_fst_snd. simpl. rewrite <- Hbs.
    rewrite <- mapM_pure. apply mapM_ext_in. intros [start end_] _. reflexivity.
  - destruct ranges as [|[start end_] ranges]; [contradiction | discriminate].
Qed.

Example get_partial_values_example :
  get_partial_values example_store
    [("a", Some (RangeByteRequest 0 2)); ("a", Some (SuffixByteRequest 2));
     ("a", None); ("a", Some (RangeByteRequest 3 9));
     ("a", Some (OffsetByteRequest 4))] =
  Ok [Some (from_bytes [x68; x65]); Some (from_bytes [x6c; x6f]);
      Some (from_bytes hello); Some (from_bytes [x6c; x6f]);
      Some (from_bytes [x6f])].
Proof. reflexivity. Qed.

End PartialValuesFacts.

(** ** Byte ranges *)

Section ByteRangeFacts.
Import Utils.

(** [Full] resolves to the whole object. *)
Lemma resolve_full (data : Buffer) :
  _normalize_byte_range_index data RangeNone = Ok (0, len data).
Proof. reflexivity. Qed.

(** [Bounded{start, end}] resolves to [(start, end - start)]. *)
Lemma resolve_bounded (data : Buffer) (start end_ : Z) :
  _normalize_byte_range_index data (RangeTuple start end_) =
  Ok (start, end_ - start).
Proof. reflexivity. Qed.

(** [SuffixLength{length}] resolves to [(object_length - length, length)]. *)
Lemma resolve_suffix (data : Buffer) (suffix : Z) :
  _normalize_byte_range_index data (RangeDict {[ "suffix" := suffix ]}) =
  Ok (len data - suffix, suffix).
Proof.
  transitivity
    (Ok (A := Z * Z) (len data - suffix, len data - (len data - suffix))).
  - reflexivity.
  - replace (len data - (len data - suffix)) with suffix by lia.
    reflexivity.
Qed.

(** A mapping with an ["offset"] entry never binds [start]. *)
Lemma resolve_offset_any (data : Buffer) (d : gmap string Z) :
  is_Some (d !! "offset") ->
  _normalize_byte_range_index data (RangeDict d) = Raise UnboundLocalError.
Proof.
  intros Hin. unfold _normalize_byte_range_index.
  rewrite bool_decide_eq_true_2 by exact Hin.
  destruct Hin as [offset Hoff]. unfold getitem. rewrite Hoff. reflexivity.
Qed.

(** C3 (as the code has it): for [OffsetFromStart{offset}] the resolution
    does not give [(offset, object_length - offset)]: the branch computes
    the length and leaves [start] unbound, so the call raises
    [UnboundLocalError], for every object and every offset; in particular
    for an object of five bytes and offset 1, where [(1, 4)] is expected. *)
Theorem resolve_offset_unbound :
  (forall (data : Buffer) (offset : Z),
     _normalize_byte_range_index data (RangeDict {[ "offset" := offset ]}) =
     Raise UnboundLocalError) /\
  _normalize_byte_range_index (from_bytes ObjectStore.hello)
    (RangeDict {[ "offset" := 1 ]}) = Raise UnboundLocalError.
Proof. split; reflexivity. Qed.

End ByteRangeFacts.

(** ** Path normalization *)

Section NormalizeFacts.
Import Utils.

Example normalize_path_ex1 :
  normalize_path (PathStr "\a//b///c\\d/") = Ok "a/b/c/d".
Proof. reflexivity. Qed.

Example normalize_path_ex2 :
  normalize_path (PathStr "a/../b") = Raise ValueError.
Proof. reflexivity. Qed.

Example normalize_path_ex3 : normalize_path (PathStr "///") = Ok "".
Proof. reflexivity. Qed.

Example normalize_path_ex4 :
  normalize_path (PathStr "a/.b/..c/d.") = Ok "a/.b/..c/d.".
Proof. reflexivity. Qed.

Example normalize_path_ex5 :
  normalize_path (PathBytes [x2f; x61; x2f; x2f; x62]) = Ok "a/b" /\
  normalize_path (PathBytes [x61; xe9]) = Raise UnicodeDecodeError /\
  normalize_path PathNone = Ok "" /\
  normalize_path (PathOther "int") = Raise TypeError.
Proof. repeat split; reflexivity. Qed.

(** *** Backslashes *)

Lemma replace_backslash_clean (s : string) :
  has_backslash (replace_backslash s) = false.
Proof.
  induction s as [|c s IH]; [reflexivity|]. simpl. rewrite IH.
  destruct (is_backslash c) eqn:Hc; [reflexivity|]. rewrite Hc. reflexivity.
Qed.

Lemma replace_backslash_id (s : string) :
  has_backslash s = false -> replace_backslash s = s.
Proof.
  induction s as [|c s IH]; [reflexivity|]. simpl.
  intros H. apply orb_false_iff in H as [Hc Hs].
  rewrite Hc, IH by exact Hs. reflexivity.
Qed.

Lemma lstrip_no_backslash (s : string) :
  has_backslash s = false -> has_backslash (lstrip_slash s) = false.
Proof.
  induction s as [|c s IH]; [reflexivity|]. simpl.
  intros H. destruct (is_slash c); [|exact H].
  apply orb_false_iff in H as [_ Hs]. auto.
Qed.

Lemma rstrip_no_backslash (s : string) :
  has_backslash s = false -> has_backslash (rstrip_slash s) = false.
Proof.
  induction s as [|c s IH]; [reflexivity|]. simpl.
  intros H. apply orb_false_iff in H as [Hc Hs]. specialize (IH Hs).
  destruct (rstrip_slash s) as [|a r].
  - destruct (is_slash c); simpl; [reflexivity|]. rewrite Hc. reflexivity.
  - change (is_backslash c || has_backslash (String a r) = false).
    rewrite Hc, IH. reflexivity.
Qed.

Lemma collapse_no_backslash (s : string) :
  has_backslash s = false -> has_backslash (collapse_slashes s) = false.
Proof.
  induction s as [|c s IH]; [reflexivity|].
  intros H. simpl in H. apply orb_false_iff in H as [Hc Hs]. specialize (IH Hs).
  simpl. destruct s as [|c' s'].
  - simpl. rewrite Hc. reflexivity.
  - destruct (is_slash c && is_slash c'); [exact IH|].
    change (is_backslash c || has_backslash (collapse_slashes (String c' s')) = false).
    rewrite Hc, IH. reflexivity.
Qed.

(** *** Leading and trailing slashes *)

Lemma lstrip_starts (s : string) : starts_with_slash (lstrip_slash s) = false.
Proof.
  induction s as [|c s IH]; [reflexivity|]. simpl.
  destruct (is_slash c) eqn:Hc; [exact IH|]. simpl. exact Hc.
Qed.

Lemma lstrip_id (s : string) :
  starts_with_slash s = false -> lstrip_slash s = s.
Proof. destruct s as [|c s]; [reflexivity|]. simpl. intros ->. reflexivity. Qed.

Lemma rstrip_ends (s : string) : ends_with_slash (rstrip_slash s) = false.
Proof.
  induction s as [|c s IH]; [reflexivity|]. simpl.
  destruct (rstrip_slash s) as [|a r].
  - destruct (is_slash c) eqn:Hc; [reflexivity|]. simpl. exact Hc.
  - exact IH.
Qed.

Lemma rstrip_id (s : string) :
  ends_with_slash s = false -> rstrip_slash s = s.
Proof.
  induction s as [|c s IH]; [reflexivity|]. simpl.
  destruct s as [|a r].
  - intros ->. reflexivity.
  - intros H. rewrite (IH H). reflexivity.
Qed.

Lemma rstrip_starts (s : string) :
  starts_with_slash s = false -> starts_with_slash (rstrip_slash s) = false.
Proof.
  destruct s as [|c s]; [reflexivity|]. simpl. intros Hc.
  destruct (rstrip_slash s); [rewrite Hc|]; simpl; exact Hc.
Qed.

Lemma strip_starts (s : string) : starts_with_slash (strip_slash s) = false.
Proof. apply rstrip_starts, lstrip_starts. Qed.

Lemma strip_ends (s : string) : ends_with_slash (strip_slash s) = false.
Proof. apply rstrip_ends. Qed.

Lemma strip_id (s : string) :
  starts_with_slash s = false -> ends_with_slash s = false ->
  strip_slash s = s.
Proof.
  intros Hs He. unfold strip_slash. rewrite (lstrip_id s Hs).
  apply rstrip_id, He.
Qed.

(** *** Repeated slashes *)

Lemma collapse_cons2 (c c' : ascii) (s : string) :
  collapse_slashes (String c (String c' s)) =
  if is_slash c && is_slash c' then collapse_slashes (String c' s)
  else String c (collapse_slashes (String c' s)).
Proof. reflexivity. Qed.

Lemma collapse_starts (s : string) :
  starts_with_slash (collapse_slashes s) = starts_with_slash s.
Proof.
  induction s as [|c s IH]; [reflexivity|].
  destruct s as [|c' s']; [reflexivity|].
  rewrite collapse_cons2.
  destruct (is_slash c) eqn:Hc, (is_slash c') eqn:Hc'; simpl andb; cbv iota;
    [rewrite IH|..]; simpl; congruence.
Qed.

Lemma collapse_ends (s : string) :
  ends_with_slash (collapse_slashes s) = ends_with_slash s.
Proof.
  induction s as [|c s IH]; [reflexivity|].
  destruct s as [|c' s']; [reflexivity|].
  change (ends_with_slash (String c (String c' s')))
    with (ends_with_slash (String c' s')).
  rewrite <- IH.
  rewrite collapse_cons2.
  destruct (is_slash c && is_slash c'); [reflexivity|].
  destruct (collapse_slashes (String c' s')) as [|a r] eqn:Hr; [|reflexivity].
  destruct s' as [|c'' s'']; simpl in Hr; [discriminate|].
  destruct (is_slash c' && is_slash c''); [|discriminate].
  exfalso. clear -Hr. revert c'' Hr.
  induction s'' as [|x t IHt]; intros c'' Hr; simpl in Hr; [discriminate|].
  destruct (is_slash c'' && is_slash x); [|discriminate]. eapply IHt, Hr.
Qed.

Lemma collapse_no_double (s : string) :
  has_double_slash (collapse_slashes s) = false.
Proof.
  induction s as [|c s IH]; [reflexivity|].
  destruct s as [|c' s']; [reflexivity|].
  rewrite collapse_cons2.
  destruct (is_slash c && is_slash c') eqn:Hcc; [exact IH|].
  pose proof (collapse_starts (String c' s')) as Hst.
  destruct (collapse_slashes (String c' s')) as [|a r]; [reflexivity|].
  change (is_slash c && is_slash a || has_double_slash (String a r) = false).
  rewrite IH. simpl in Hst. rewrite Hst, Hcc. reflexivity.
Qed.

Lemma collapse_id (s : string) :
  has_double_slash s = false -> collapse_slashes s = s.
Proof.
  induction s as [|c s IH]; [reflexivity|].
  destruct s as [|c' s']; [reflexivity|].
  intros H.
  change ((is_slash c && is_slash c') || has_double_slash (String c' s') = false)
    in H.
  apply orb_false_iff in H as [Hcc Hs].
  rewrite collapse_cons2.
  rewrite Hcc, (IH Hs). reflexivity.
Qed.

(** *** The cleaned path *)

Lemma clean_path_shape (s : string) :
  has_backslash (clean_path s) = false /\
  starts_with_slash (clean_path s) = false /\
  ends_with_slash (clean_path s) = false /\
  has_double_slash (clean_path s) = false.
Proof.
  unfold clean_path. repeat split.
  - apply collapse_no_backslash. unfold strip_slash.
    apply rstrip_no_backslash, lstrip_no_backslash, replace_backslash_clean.
  - rewrite collapse_starts. apply strip_starts.
  - rewrite collapse_ends. apply strip_ends.
  - apply collapse_no_double.
Qed.

Lemma clean_path_id (s : string) :
  has_backslash s = false -> starts_with_slash s = false ->
  ends_with_slash s = false -> has_double_slash s = false ->
  clean_path s = s.
Proof.
  intros Hb Hs He Hd. unfold clean_path.
  rewrite (replace_backslash_id s Hb), (strip_id s Hs He).
  apply collapse_id, Hd.
Qed.

Lemma is_key_spec (s : string) :
  is_key s = true <->
  has_backslash s = false /\ starts_with_slash s = false /\
  ends_with_slash s = false /\ has_double_slash s = false /\
  existsb is_dot_segment (split_slash s) = false.
Proof.
  unfold is_key. rewrite !andb_true_iff, !negb_true_iff. tauto.
Qed.

(** What [normalize_path] returns is a key. *)
Lemma normalize_path_is_key (path : path_arg) (r : string) :
  normalize_path path = Ok r -> is_key r = true.
Proof.
  unfold normalize_path.
  destruct (coerce_path path) as [s0 | e]; [simpl | discriminate].
  destruct (existsb is_dot_segment (split_slash (clean_path s0))) eqn:Hdot;
    [discriminate|].
  intros [= <-]. apply is_key_spec.
  destruct (clean_path_shape s0) as (Hb & Hs & He & Hd). auto.
Qed.

(** A key is returned as it is. *)
Lemma normalize_path_key (s : string) :
  is_key s = true -> normalize_path (PathStr s) = Ok s.
Proof.
  intros H. apply is_key_spec in H as (Hb & Hs & He & Hd & Hdot).
  unfold normalize_path. simpl.
  rewrite (clean_path_id s Hb Hs He Hd), Hdot. reflexivity.
Qed.

(** C4: normalization is idempotent: for every input that [normalize_path]
    accepts ([None], bytes, a path or a string), normalizing its result
    returns that result unchanged. *)
Theorem normalize_path_idempotent (path : path_arg) (r : string) :
  normalize_path path = Ok r ->
  normalize_path (PathStr r) = Ok r.
Proof.
  intros H. apply normalize_path_key. exact (normalize_path_is_key path r H).
Qed.

Lemma normalize_path_idempotent_witness :
  normalize_path (PathStr "\a//b///.c\\d/") = Ok "a/b/.c/d" /\
  normalize_path (PathStr "a/b/.c/d") = Ok "a/b/.c/d".
Proof.
  split; [reflexivity|].
  apply (normalize_path_idempotent (PathStr "\a//b///.c\\d/")). reflexivity.
Defined.

(** *** Segments *)

Lemma split_slash_not_nil (s : string) : split_slash s <> [].
Proof.
  destruct s as [|c s]; simpl; [discriminate|].
  destruct (is_slash c); [discriminate|].
  destruct (split_slash s); discriminate.
Qed.

(** Splitting distributes over a slash between two strings, so a segment is
    found wherever it stands between slashes. *)
Lemma split_slash_app (a b : string) :
  split_slash (a ++ String "/" b) = (split_slash a ++ split_slash b)%list.
Proof.
  induction a as [|c a IH]; simpl; [reflexivity|].
  rewrite IH. destruct (is_slash c); [reflexivity|].
  pose proof (split_slash_not_nil a) as Hne.
  destruct (split_slash a); [contradiction | reflexivity].
Qed.

Lemma dot_segment_any_position (a b seg : string) :
  seg = "." \/ seg = ".." ->
  In seg (split_slash (a ++ String "/" (seg ++ String "/" b))) /\
  In seg (split_slash (seg ++ String "/" b)) /\
  In seg (split_slash (a ++ String "/" seg)).
Proof.
  intros Hseg. rewrite !split_slash_app, !in_app_iff.
  assert (Hin : In seg (split_slash seg)).
  { destruct Hseg as [-> | ->]; left; reflexivity. }
  auto.
Qed.

Example dot_segments_rejected_ex :
  normalize_path (PathStr "../a") = Raise ValueError /\
  normalize_path (PathStr "a/./b") = Raise ValueError /\
  normalize_path (PathStr "a/b/..") = Raise ValueError /\
  normalize_path (PathStr "\.\") = Raise ValueError /\
  normalize_path (PathBytes [x61; x2f; x2e; x2e]) = Raise ValueError /\
  normalize_path (PathStr "...") = Ok "...".
Proof. repeat split; reflexivity. Qed.

(** C5: if, after backslash conversion, stripping of leading and trailing
    slashes and collapsing of repeated slashes, some segment of the path
    (in any position) is [.] or [..], then [normalize_path] raises
    [ValueError], the invalid-path error of the code, and returns nothing. *)
Theorem dot_segment_rejected (path : path_arg) (s0 seg : string) :
  coerce_path path = Ok s0 ->
  In seg (split_slash (clean_path s0)) ->
  seg = "." \/ seg = ".." ->
  normalize_path path = Raise ValueError.
Proof.
  intros Hc Hin Hseg. unfold normalize_path. rewrite Hc. simpl.
  replace (existsb is_dot_segment (split_slash (clean_path s0))) with true;
    [reflexivity|].
  symmetry. apply existsb_exists. exists seg. split; [exact Hin|].
  destruct Hseg as [-> | ->]; reflexivity.
Qed.

Lemma dot_segment_rejected_witness :
  normalize_path (PathStr "/a\\..//b/") = Raise ValueError.
Proof.
  apply (dot_segment_rejected (PathStr "/a\\..//b/") "/a\\..//b/" "..").
  - reflexivity.
  - simpl. right. left. reflexivity.
  - right. reflexivity.
Defined.

End NormalizeFacts.

(** * Further properties *)

(** ** Path normalization *)

Section NormalizeMore.
Import Utils.

(** X1: whatever [normalize_path] returns is a key: it has no backslash, no
    leading or trailing slash, no repeated slash, and no segment equal to
    [.] or [..]. *)
Theorem normalize_path_returns_key (path : path_arg) (r : string) :
  normalize_path path = Ok r ->
  has_backslash r = false /\ starts_with_slash r = false /\
  ends_with_slash r = false /\ has_double_slash r = false /\
  forall seg, In seg (split_slash r) -> seg <> "." /\ seg <> "..".
Proof.
  intros H. apply normalize_path_is_key, is_key_spec in H
    as (Hb & Hs & He & Hd & Hdot).
  repeat (split; [assumption|]).
  intros seg Hin.
  assert (Hseg : is_dot_segment seg = false).
  { destruct (is_dot_segment seg) eqn:Hseg; [|reflexivity].
    rewrite <- Hdot. symmetry. apply existsb_exists. eauto. }
  split; intros ->; discriminate Hseg.
Qed.

Lemma normalize_path_returns_key_witness :
  has_backslash "a/b" = false /\ starts_with_slash "a/b" = false /\
  ends_with_slash "a/b" = false /\ has_double_slash "a/b" = false /\
  forall seg, In seg (split_slash "a/b") -> seg <> "." /\ seg <> "..".
Proof.
  apply (normalize_path_returns_key (PathStr "\a//b\")). reflexivity.
Defined.

(** X2: the strings that [normalize_path] returns unchanged are exactly the
    keys. *)
Theorem normalize_path_fixed_points (s : string) :
  normalize_path (PathStr s) = Ok s <-> is_key s = true.
Proof.
  split.
  - apply normalize_path_is_key.
  - apply normalize_path_key.
Qed.

Lemma replace_backslash_idem (s : string) :
  replace_backslash (replace_backslash s) = replace_backslash s.
Proof. apply replace_backslash_id, replace_backslash_clean. Qed.

(** X3: a path written with backslashes normalizes exactly like the same path
    written with forward slashes (same key, or same error). *)
Theorem normalize_path_backslash (s : string) :
  normalize_path (PathStr (replace_backslash s)) = normalize_path (PathStr s).
Proof.
  unfold normalize_path, clean_path. simpl.
  rewrite replace_backslash_idem. reflexivity.
Qed.

Lemma replace_backslash_app (a b : string) :
  replace_backslash (a ++ b) = replace_backslash a ++ replace_backslash b.
Proof.
  induction a as [|c a IH]; simpl; [reflexivity|]. rewrite IH. reflexivity.
Qed.

Lemma rstrip_app_slash (t : string) : rstrip_slash (t ++ "/") = rstrip_slash t.
Proof.
  induction t as [|c t IH]; [reflexivity|]. simpl. rewrite IH. reflexivity.
Qed.

Lemma lstrip_app_slash (t : string) :
  lstrip_slash (t ++ "/") =
  match lstrip_slash t with
  | EmptyString => EmptyString
  | String c r => String c r ++ "/"
  end.
Proof.
  induction t as [|c t IH]; [reflexivity|]. simpl.
  destruct (is_slash c); [exact IH | reflexivity].
Qed.

Lemma strip_app_slash (t : string) : strip_slash (t ++ "/") = strip_slash t.
Proof.
  unfold strip_slash. rewrite lstrip_app_slash.
  destruct (lstrip_slash t) as [|c r]; [reflexivity|].
  apply rstrip_app_slash.
Qed.

Lemma clean_path_trailing_slash (s : string) : clean_path (s ++ "/") = clean_path s.
Proof.
  unfold clean_path. rewrite replace_backslash_app.
  change (replace_backslash "/") with "/". rewrite strip_app_slash. reflexivity.
Qed.

Lemma clean_path_leading_slash (s : string) :
  clean_path (String "/" s) = clean_path s.
Proof. reflexivity. Qed.

(** X4: a leading slash or a trailing slash does not change the outcome of
    normalization. *)
Theorem normalize_path_outer_slashes (s : string) :
  normalize_path (PathStr (String "/" s)) = normalize_path (PathStr s) /\
  normalize_path (PathStr (s ++ "/")) = normalize_path (PathStr s).
Proof.
  unfold normalize_path. simpl.
  rewrite clean_path_leading_slash, clean_path_trailing_slash. split; reflexivity.
Qed.

Lemma has_backslash_app (a b : string) :
  has_backslash (a ++ b) = has_backslash a || has_backslash b.
Proof.
  induction a as [|c a IH]; simpl; [reflexivity|].
  rewrite IH, orb_assoc. reflexivity.
Qed.

Lemma ends_with_slash_app (a : string) (c : ascii) (b : string) :
  ends_with_slash (a ++ String c b) = ends_with_slash (String c b).
Proof.
  induction a as [|x a IH]; [reflexivity|].
  change (String x a ++ String c b) with (String x (a ++ String c b)).
  destruct a as [|y a']; [reflexivity|]. exact IH.
Qed.

Lemma has_double_slash_join (a b : string) :
  has_double_slash a = false -> ends_with_slash a = false ->
  starts_with_slash b = false -> has_double_slash b = false ->
  has_double_slash (a ++ String "/" b) = false.
Proof.
  intros Hda Hea Hsb Hdb.
  induction a as [|x a IH].
  - simpl. destruct b as [|y b]; [reflexivity|].
    simpl in Hsb. rewrite Hsb. simpl. exact Hdb.
  - change (String x a ++ String "/" b) with (String x (a ++ String "/" b)).
    destruct a as [|y a'].
    + simpl in Hea. simpl app.
      change (is_slash x && is_slash "/" || has_double_slash (String "/" b) = false).
      rewrite Hea. simpl. destruct b as [|z b]; [reflexivity|].
      simpl in Hsb. rewrite Hsb. simpl. exact Hdb.
    + change (is_slash x && is_slash y || has_double_slash (String y a' ++ String "/" b) = false).
      change (is_slash x && is_slash y || has_double_slash (String y a') = false) in Hda.
      apply orb_false_iff in Hda as [Hxy Hda]. rewrite Hxy. simpl.
      apply IH; assumption.
Qed.

Lemma is_key_join (a b : string) :
  is_key a = true -> is_key b = true -> a <> "" -> b <> "" ->
  is_key (a ++ String "/" b) = true.
Proof.
  intros Ha Hb Hna Hnb.
  apply is_key_spec in Ha as (Hba & Hsa & Hea & Hda & Hdota).
  apply is_key_spec in Hb as (Hbb & Hsb & Heb & Hdb & Hdotb).
  apply is_key_spec. repeat split.
  - rewrite has_backslash_app. simpl. rewrite Hba, Hbb. reflexivity.
  - destruct a as [|x a]; [contradiction|]. exact Hsa.
  - rewrite ends_with_slash_app. destruct b as [|y b]; [contradiction|]. exact Heb.
  - apply has_double_slash_join; assumption.
  - rewrite split_slash_app, existsb_app, Hdota, Hdotb. reflexivity.
Qed.

(** X5: two non-empty keys joined by a slash form a key, which
    [normalize_path] returns unchanged. *)
Theorem normalize_path_join (a b : string) :
  is_key a = true -> is_key b = true -> a <> "" -> b <> "" ->
  normalize_path (PathStr (a ++ String "/" b)) = Ok (a ++ String "/" b).
Proof.
  intros Ha Hb Hna Hnb. apply normalize_path_key, is_key_join; assumption.
Qed.

Lemma normalize_path_join_witness :
  normalize_path (PathStr "group/array/c/0") = Ok "group/array/c/0".
Proof.
  apply (normalize_path_join "group/array" "c/0");
    [reflexivity | reflexivity | discriminate | discriminate].
Defined.

Lemma split_slash_tail_nonempty (s : string) :
  ends_with_slash s = false -> has_double_slash s = false ->
  Forall (fun seg => seg <> "") (tail (split_slash s)).
Proof.
  induction s as [|c s IH]; intros He Hd; [constructor|].
  destruct s as [|c' s'].
  - simpl in *. rewrite He. constructor.
  - change (ends_with_slash (String c' s') = false) in He.
    change (is_slash c && is_slash c' || has_double_slash (String c' s') = false) in Hd.
    apply orb_false_iff in Hd as [Hcc Hd]. specialize (IH He Hd).
    change (split_slash (String c (String c' s')))
      with (if is_slash c then EmptyString :: split_slash (String c' s')
            else match split_slash (String c' s') with
                 | seg :: segs => String c seg :: segs
                 | [] => [String c EmptyString]
                 end).
    destruct (is_slash c) eqn:Hc.
    + simpl in Hcc. cbn [tail].
      pose proof (split_slash_not_nil (String c' s')) as Hne.
      destruct (split_slash (String c' s')) as [|seg segs] eqn:Hsp; [contradiction|].
      constructor; [|exact IH].
      simpl in Hsp. rewrite Hcc in Hsp.
      destruct (split_slash s'); injection Hsp as <- _; discriminate.
    + destruct (split_slash (String c' s')) as [|seg segs]; [constructor | exact IH].
Qed.

(** X6: every segment of a non-empty normalized path is non-empty. *)
Theorem normalize_path_segments_nonempty (path : path_arg) (r : string) :
  normalize_path path = Ok r -> r <> "" ->
  Forall (fun seg => seg <> "") (split_slash r).
Proof.
  intros H Hr. apply normalize_path_is_key, is_key_spec in H
    as (_ & Hs & He & Hd & _).
  pose proof (split_slash_tail_nonempty r He Hd) as Htl.
  destruct r as [|c r']; [contradiction|].
  simpl in Hs, Htl |- *. rewrite Hs in Htl |- *.
  destruct (split_slash r') as [|seg segs]; simpl in Htl.
  - constructor; [discriminate | constructor].
  - constructor; [discriminate | exact Htl].
Qed.

Lemma normalize_path_segments_nonempty_witness :
  Forall (fun seg => seg <> "") (split_slash "a/b/c").
Proof.
  apply (normalize_path_segments_nonempty (PathStr "//a\\b///c/") "a/b/c");
    [reflexivity | discriminate].
Defined.

Lemma decode_ascii_outcome (b : bytes) :
  match decode_ascii b with
  | Ok _ => Forall (fun x => ~ non_ascii x) b
  | Raise e => e = UnicodeDecodeError /\ Exists non_ascii b
  end.
Proof.
  induction b as [|x b IH]; simpl; [constructor|].
  destruct (N.ltb_spec (Byte.to_N x) 128) as [Hlt | Hge].
  - destruct (decode_ascii b) as [s | e]; simpl.
    + constructor; [unfold non_ascii; lia | exact IH].
    + destruct IH as [-> Hex]. split; [reflexivity|]. apply Exists_cons_tl, Hex.
  - split; [reflexivity|]. apply Exists_cons_hd. exact Hge.
Qed.

(** X7: [normalize_path] raises only [TypeError] (an argument of another
    type), [UnicodeDecodeError] (bytes with a byte of 128 or above) or
    [ValueError] (a [.] or [..] segment in the cleaned path), each in that
    case only. *)
Theorem normalize_path_errors (path : path_arg) (e : exn) :
  normalize_path path = Raise e ->
  (e = TypeError /\ exists type_name, path = PathOther type_name) \/
  (e = UnicodeDecodeError /\ exists b, path = PathBytes b /\ Exists non_ascii b) \/
  (e = ValueError /\ exists s0 seg,
      coerce_path path = Ok s0 /\ In seg (split_slash (clean_path s0)) /\
      (seg = "." \/ seg = "..")).
Proof.
  unfold normalize_path. destruct (coerce_path path) as [s0 | e0] eqn:Hco; simpl.
  - destruct (existsb is_dot_segment (split_slash (clean_path s0))) eqn:Hdot;
      [|discriminate].
    intros [= <-]. right. right. split; [reflexivity|].
    apply existsb_exists in Hdot as (seg & Hin & Hseg).
    exists s0, seg. split; [reflexivity|]. split; [exact Hin|].
    unfold is_dot_segment in Hseg. apply orb_true_iff in Hseg as [H | H];
      apply String.eqb_eq in H; auto.
  - intros [= <-]. destruct path as [| b | s | s | t]; simpl in Hco;
      try discriminate.
    + right. left. pose proof (decode_ascii_outcome b) as Hb. rewrite Hco in Hb.
      destruct Hb as [-> Hex]. eauto.
    + left. injection Hco as <-. eauto.
Qed.

Lemma normalize_path_errors_witness :
  (UnicodeDecodeError = TypeError /\
     exists type_name, PathBytes [x61; xe9] = PathOther type_name) \/
  (UnicodeDecodeError = UnicodeDecodeError /\
     exists b, PathBytes [x61; xe9] = PathBytes b /\ Exists non_ascii b) \/
  (UnicodeDecodeError = ValueError /\ exists s0 seg,
      coerce_path (PathBytes [x61; xe9]) = Ok s0 /\
      In seg (split_slash (clean_path s0)) /\ (seg = "." \/ seg = "..")).
Proof.
  apply (normalize_path_errors (PathBytes [x61; xe9]) UnicodeDecodeError).
  reflexivity.
Defined.

Lemma lstrip_length (s : string) :
  (String.length (lstrip_slash s) <= String.length s)%nat.
Proof.
  induction s as [|c s IH]; simpl; [lia|]. destruct (is_slash c); simpl; lia.
Qed.

Lemma rstrip_length (s : string) :
  (String.length (rstrip_slash s) <= String.length s)%nat.
Proof.
  induction s as [|c s IH]; simpl; [lia|].
  destruct (rstrip_slash s) as [|a r]; [destruct (is_slash c)|]; simpl in *; lia.
Qed.

Lemma collapse_length (s : string) :
  (String.length (collapse_slashes s) <= String.length s)%nat.
Proof.
  induction s as [|c s IH]; [simpl; lia|].
  destruct s as [|c' s']; [simpl; lia|].
  rewrite collapse_cons2.
  destruct (is_slash c && is_slash c'); cbn [String.length] in *; lia.
Qed.

Lemma replace_backslash_length (s : string) :
  String.length (replace_backslash s) = String.length s.
Proof. induction s as [|c s IH]; simpl; congruence. Qed.

(** Normalization never lengthens a path. *)
Lemma normalize_path_length (s r : string) :
  normalize_path (PathStr s) = Ok r ->
  (String.length r <= String.length s)%nat.
Proof.
  unfold normalize_path. simpl.
  destruct (existsb is_dot_segment (split_slash (clean_path s))); [discriminate|].
  intros [= <-]. unfold clean_path, strip_slash.
  pose proof (collapse_length (rstrip_slash (lstrip_slash (replace_backslash s)))).
  pose proof (rstrip_length (lstrip_slash (replace_backslash s))).
  pose proof (lstrip_length (replace_backslash s)).
  pose proof (replace_backslash_length s). lia.
Qed.

Lemma without_separators_replace (s : string) :
  without_separators (replace_backslash s) = without_separators s.
Proof.
  induction s as [|c s IH]; [reflexivity|]. simpl.
  destruct (is_backslash c) eqn:Hb.
  - rewrite orb_true_r. simpl. exact IH.
  - rewrite Hb, IH. reflexivity.
Qed.

Lemma without_separators_lstrip (s : string) :
  without_separators (lstrip_slash s) = without_separators s.
Proof.
  induction s as [|c s IH]; [reflexivity|]. simpl.
  destruct (is_slash c) eqn:Hc; simpl; [exact IH|]. rewrite Hc. reflexivity.
Qed.

Lemma without_separators_rstrip (s : string) :
  without_separators (rstrip_slash s) = without_separators s.
Proof.
  induction s as [|c s IH]; [reflexivity|]. simpl. rewrite <- IH.
  destruct (rstrip_slash s) as [|a r]; [|reflexivity].
  destruct (is_slash c) eqn:Hc; simpl; [reflexivity|]. rewrite Hc. reflexivity.
Qed.

Lemma without_separators_collapse (s : string) :
  without_separators (collapse_slashes s) = without_separators s.
Proof.
  induction s as [|c s IH]; [reflexivity|].
  destruct s as [|c' s']; [reflexivity|].
  rewrite collapse_cons2.
  change (without_separators (String c (String c' s')))
    with (if is_slash c || is_backslash c then without_separators (String c' s')
          else String c (without_separators (String c' s'))).
  destruct (is_slash c) eqn:Hc, (is_slash c') eqn:Hc'; simpl andb; cbv iota.
  - exact IH.
  - simpl orb. cbn [without_separators]. rewrite Hc. simpl orb. cbv iota. exact IH.
  - cbn [without_separators]. rewrite Hc, IH. reflexivity.
  - cbn [without_separators]. rewrite Hc, IH. reflexivity.
Qed.

(** X8: normalization only converts or deletes separators: the characters
    other than slash and backslash are those of the input, in order. *)
Theorem normalize_path_keeps_characters (s r : string) :
  normalize_path (PathStr s) = Ok r ->
  without_separators r = without_separators s.
Proof.
  unfold normalize_path. simpl.
  destruct (existsb is_dot_segment (split_slash (clean_path s))); [discriminate|].
  intros [= <-]. unfold clean_path, strip_slash.
  rewrite without_separators_collapse, without_separators_rstrip,
    without_separators_lstrip, without_separators_replace. reflexivity.
Qed.

Lemma normalize_path_keeps_characters_witness :
  without_separators "data/x.y" = without_separators "\data//x.y/".
Proof. apply (normalize_path_keeps_characters "\data//x.y/" "data/x.y"). reflexivity. Defined.

End NormalizeMore.

(** ** Byte ranges and the codec *)

Section ByteRangeMore.
Import Utils.

(** A mapping with a ["suffix"] entry and no ["offset"] entry. *)
Lemma resolve_suffix_only (data : Buffer) (d : gmap string Z) (suffix : Z) :
  d !! "offset" = None -> d !! "suffix" = Some suffix ->
  _normalize_byte_range_index data (RangeDict d) = Ok (len data - suffix, suffix).
Proof.
  intros Hoff Hsuf. unfold _normalize_byte_range_index, getitem.
  rewrite bool_decide_eq_false_2 by (rewrite Hoff; intros [? ?]; discriminate).
  rewrite bool_decide_eq_true_2 by eauto. rewrite Hsuf. simpl.
  replace (len data - (len data - suffix)) with suffix by lia. reflexivity.
Qed.

(** A mapping with neither entry binds neither local. *)
Lemma resolve_neither (data : Buffer) (d : gmap string Z) :
  d !! "offset" = None -> d !! "suffix" = None ->
  _normalize_byte_range_index data (RangeDict d) = Raise UnboundLocalError.
Proof.
  intros Hoff Hsuf. unfold _normalize_byte_range_index.
  rewrite bool_decide_eq_false_2 by (rewrite Hoff; intros [? ?]; discriminate).
  rewrite bool_decide_eq_false_2 by (rewrite Hsuf; intros [? ?]; discriminate).
  reflexivity.
Qed.

(** X9: for a mapping request the resolution succeeds exactly when the
    mapping has a ["suffix"] entry and no ["offset"] entry, giving
    [(len(data) - suffix, suffix)]; in every other case (an ["offset"]
    entry, with or without ["suffix"], or neither entry) it raises
    [UnboundLocalError]. *)
Theorem resolve_mapping (data : Buffer) (d : gmap string Z) :
  _normalize_byte_range_index data (RangeDict d) =
  match d !! "offset", d !! "suffix" with
  | None, Some suffix => Ok (len data - suffix, suffix)
  | _, _ => Raise UnboundLocalError
  end.
Proof.
  destruct (d !! "offset") as [offset|] eqn:Hoff.
  - apply resolve_offset_any. rewrite Hoff. eauto.
  - destruct (d !! "suffix") as [suffix|] eqn:Hsuf.
    + apply resolve_suffix_only; assumption.
    + apply resolve_neither; assumption.
Qed.

(** X10: whenever the resolution succeeds, [start + length] is the end of the
    range: the second component of a tuple request, the length of the
    object otherwise. *)
Theorem resolve_end (data : Buffer) (byte_range : ByteRangeRequest)
    (start length : Z) :
  _normalize_byte_range_index data byte_range = Ok (start, length) ->
  start + length =
  match byte_range with
  | RangeTuple _ end_ => end_
  | _ => len data
  end.
Proof.
  destruct byte_range as [| b0 b1 | d].
  - intros [= <- <-]. lia.
  - intros [= <- <-]. lia.
  - destruct (d !! "offset") as [offset|] eqn:Hoff.
    + rewrite resolve_offset_any by (rewrite Hoff; eauto). discriminate.
    + destruct (d !! "suffix") as [suffix|] eqn:Hsuf.
      * rewrite (resolve_suffix_only data d suffix Hoff Hsuf).
        intros [= <- <-]. lia.
      * rewrite (resolve_neither data d Hoff Hsuf). discriminate.
Qed.

Lemma resolve_end_witness :
  3 + 2 = len (from_bytes ObjectStore.hello).
Proof.
  apply (resolve_end (from_bytes ObjectStore.hello)
           (RangeDict {[ "suffix" := 2 ]}) 3 2). reflexivity.
Defined.

(** X11: the resolution neither clamps nor rejects: a tuple whose end is below
    its start gives a negative length, and a suffix longer than the object
    gives a negative start. *)
Theorem resolve_no_clamping (data : Buffer) (start end_ suffix : Z) :
  (end_ < start ->
   exists length, _normalize_byte_range_index data (RangeTuple start end_)
                  = Ok (start, length) /\ length < 0) /\
  (len data < suffix ->
   exists start', _normalize_byte_range_index data (RangeDict {[ "suffix" := suffix ]})
                  = Ok (start', suffix) /\ start' < 0).
Proof.
  split; intros H.
  - exists (end_ - start). split; [reflexivity | lia].
  - exists (len data - suffix). split; [|lia].
    apply resolve_suffix_only; reflexivity.
Qed.

Lemma resolve_no_clamping_witness :
  (exists length, _normalize_byte_range_index (from_bytes ObjectStore.hello)
                    (RangeTuple 4 1) = Ok (4, length) /\ length < 0) /\
  (exists start', _normalize_byte_range_index (from_bytes ObjectStore.hello)
                    (RangeDict {[ "suffix" := 9 ]}) = Ok (start', 9) /\ start' < 0).
Proof.
  destruct (resolve_no_clamping (from_bytes ObjectStore.hello) 4 1 9) as [H1 H2].
  split; [apply H1; lia | apply H2; vm_compute; reflexivity].
Defined.

End ByteRangeMore.

Section ZstdMore.
Import Zstd.

(** The outcome of construction, in the order the checks are made. *)
Lemma init_outcome (l c : JSON) :
  __init__ l c =
  if negb (isinstance_int l) then Raise TypeError
  else if (23 <=? int_value l)%Z then Raise ValueError
  else match c with
       | JBool b => Ok (mkZstdCodec l b)
       | _ => Raise TypeError
       end.
Proof.
  unfold __init__, parse_zstd_level.
  destruct (isinstance_int l); simpl; [|reflexivity].
  rewrite Z.geb_leb. destruct (23 <=? int_value l)%Z; simpl; [reflexivity|].
  destruct c; reflexivity.
Qed.

(** X12: the level is checked before the checksum: a level that is not an
    [int] raises [TypeError] and an [int] level of 23 or above raises
    [ValueError], whatever the checksum is; with a level in range, a
    checksum that is not a [bool] raises [TypeError]; and a [bool] level is
    accepted, [bool] being a subclass of [int]. *)
Theorem init_check_order (l c : JSON) :
  (isinstance_int l = false -> __init__ l c = Raise TypeError) /\
  (isinstance_int l = true -> 23 <= int_value l ->
     __init__ l c = Raise ValueError) /\
  (isinstance_int l = true -> int_value l < 23 ->
     (forall b, c <> JBool b) -> __init__ l c = Raise TypeError) /\
  (forall b b', __init__ (JBool b) (JBool b') = Ok (mkZstdCodec (JBool b) b')).
Proof.
  rewrite init_outcome. split; [|split; [|split]].
  - intros ->. reflexivity.
  - intros -> Hge. simpl.
    destruct (Z.leb_spec 23 (int_value l)); [reflexivity | lia].
  - intros -> Hlt Hc. simpl.
    destruct (Z.leb_spec 23 (int_value l)); [lia|].
    destruct c; try reflexivity. destruct (Hc b). reflexivity.
  - intros [] b'; reflexivity.
Qed.

Lemma init_check_order_witness :
  __init__ (JStr "3") (JBool true) = Raise TypeError /\
  __init__ (JInt 40) (JStr "yes") = Raise ValueError /\
  __init__ (JInt 3) (JInt 1) = Raise TypeError.
Proof.
  split; [|split].
  - apply (proj1 (init_check_order (JStr "3") (JBool true))). reflexivity.
  - apply (proj1 (proj2 (init_check_order (JInt 40) (JStr "yes"))));
      [reflexivity | simpl; lia].
  - apply (proj1 (proj2 (proj2 (init_check_order (JInt 3) (JInt 1)))));
      [reflexivity | simpl; lia | discriminate].
Defined.

(** X13: every codec that [from_dict] returns has an [int] level below 23. *)
Theorem codec_level_invariant (data : JSON) (codec : ZstdCodec) :
  from_dict data = Ok codec ->
  isinstance_int (level codec) = true /\ int_value (level codec) < 23.
Proof.
  unfold from_dict.
  destruct (parse_named_configuration data "zstd") as [[name conf] | e];
    simpl; [|discriminate].
  unfold cls. destruct (bool_decide _); [|discriminate].
  intros H. destruct (init_inv _ _ _ H) as (Hi & Hv & b & _ & ->). auto.
Qed.

Lemma codec_level_invariant_witness :
  isinstance_int (JInt 7) = true /\ int_value (JInt 7) < 23.
Proof.
  apply (codec_level_invariant
           (to_dict (mkZstdCodec (JInt 7) true)) (mkZstdCodec (JInt 7) true)).
  reflexivity.
Defined.

(** X14: a configuration entry other than [level] and [checksum] makes the
    construction fail with [TypeError], whatever the other entries are. *)
Theorem cls_unknown_keyword (kwargs : gmap string JSON) (k : string) :
  is_Some (kwargs !! k) -> k <> "level" -> k <> "checksum" ->
  cls kwargs = Raise TypeError.
Proof.
  intros Hk Hl Hc. unfold cls.
  rewrite bool_decide_eq_false_2; [reflexivity|].
  intros Hsub. apply elem_of_dom in Hk. apply Hsub in Hk.
  apply elem_of_union in Hk as [Hk | Hk]; apply elem_of_singleton in Hk; congruence.
Qed.

Lemma cls_unknown_keyword_witness :
  cls {[ "level" := JInt 3; "window" := JInt 20 ]} = Raise TypeError.
Proof.
  apply (cls_unknown_keyword _ "window");
    [eexists; reflexivity | discriminate | discriminate].
Defined.

(** Entries left out take the defaults of the parameters. *)
Lemma cls_defaults (kwargs : gmap string JSON) :
  kwargs !! "level" = None -> kwargs !! "checksum" = None ->
  dom kwargs ⊆ ({[ "level"; "checksum" ]} : gset string) ->
  cls kwargs = Ok (mkZstdCodec (JInt 0) false).
Proof.
  intros Hl Hc Hsub. unfold cls.
  rewrite bool_decide_eq_true_2 by exact Hsub. rewrite Hl, Hc. reflexivity.
Qed.

(** X15: a configuration with both entries that [from_dict] accepts is the
    configuration that [to_dict] gives for the codec built from it. *)
Theorem to_dict_from_dict (l c : JSON) (codec : ZstdCodec) :
  let data := JDict {[ "name" := JStr "zstd";
                       "configuration" :=
                         JDict {[ "level" := l; "checksum" := c ]} ]} in
  from_dict data = Ok codec -> to_dict codec = data.
Proof.
  intros data H.
  assert (Hinit : __init__ l c = Ok codec) by exact H.
  destruct (init_inv _ _ _ Hinit) as (_ & _ & b & -> & ->). reflexivity.
Qed.

Lemma to_dict_from_dict_witness :
  to_dict (mkZstdCodec (JInt (-3)) false) =
  JDict {[ "name" := JStr "zstd";
           "configuration" :=
             JDict {[ "level" := JInt (-3); "checksum" := JBool false ]} ]}.
Proof.
  apply (to_dict_from_dict (JInt (-3)) (JBool false)). reflexivity.
Defined.

End ZstdMore.

(** ** Single reads *)

Section GetMore.
Import ObjectStore.

Lemma get_body_inv (store : ObstoreBackend) (key : string)
    (byte_range : option ByteRequest) :
  match get_body store key byte_range with
  | Ok v => exists b, v = Some (from_bytes b) /\
                      backend_returns store key byte_range b
  | Raise e => backend_raises store key byte_range e \/
               (byte_range = Some UnknownRequest /\ e = ValueError)
  end.
Proof.
  destruct byte_range as [[start end_ | offset | suffix | ] | ]; simpl.
  - destruct (get_range_async store key start end_) as [b | e] eqn:H; simpl.
    + exists b. split; [reflexivity|]. constructor. exact H.
    + left. constructor. exact H.
  - destruct (get_async store key (Some (OffsetRange offset))) as [resp | e] eqn:H;
      simpl; [|left; apply raises_offset_call; exact H].
    destruct (bytes_async resp) as [b | e] eqn:Hb; simpl.
    + exists b. split; [reflexivity|]. econstructor; eauto.
    + left. eapply raises_offset_read; eauto.
  - destruct (get_async store key (Some (SuffixRange suffix))) as [resp | e] eqn:H;
      simpl; [|left; apply raises_suffix_call; exact H].
    destruct (bytes_async resp) as [b | e] eqn:Hb; simpl.
    + exists b. split; [reflexivity|]. econstructor; eauto.
    + left. eapply raises_suffix_read; eauto.
  - right. auto.
  - destruct (get_async store key None) as [resp | e] eqn:H;
      simpl; [|left; apply raises_full_call; exact H].
    destruct (bytes_async resp) as [b | e] eqn:Hb; simpl.
    + exists b. split; [reflexivity|]. econstructor; eauto.
    + left. eapply raises_full_read; eauto.
Qed.

Lemma get_body_returns (store : ObstoreBackend) (key : string)
    (byte_range : option ByteRequest) (b : bytes) :
  backend_returns store key byte_range b ->
  get_body store key byte_range = Ok (Some (from_bytes b)).
Proof.
  intros H; destruct H; simpl;
    repeat match goal with
           | Hc : _ = _ |- _ => rewrite Hc; simpl
           end; reflexivity.
Qed.

(** X16: [get] returns [None] only when the backend raised one of the three
    not-found signals for the request. *)
Theorem get_None_only_when_not_found (store : ObstoreBackend) (key : string)
    (byte_range : option ByteRequest) :
  get store key byte_range = Ok None ->
  exists e, backend_raises store key byte_range e /\ not_found_signal e.
Proof.
  unfold get, try_except.
  pose proof (get_body_inv store key byte_range) as Hinv.
  destruct (get_body store key byte_range) as [v | e].
  - destruct Hinv as (b & -> & _). discriminate.
  - destruct (except_matches ALLOWED_EXCEPTIONS e) eqn:Ha; [|discriminate].
    intros _. apply allowed_iff in Ha. exists e. split; [|exact Ha].
    destruct Hinv as [H | [_ ->]]; [exact H|].
    destruct Ha as [Ha | [Ha | Ha]]; discriminate Ha.
Qed.

Lemma get_None_only_when_not_found_witness :
  exists e, backend_raises example_store "dir" None e /\ not_found_signal e.
Proof.
  apply (get_None_only_when_not_found example_store "dir" None). reflexivity.
Defined.

(** X17: [get] returns a buffer exactly when the backend read for the request
    succeeds, and the buffer holds the bytes the backend returned. *)
Theorem get_returns_backend_bytes (store : ObstoreBackend) (key : string)
    (byte_range : option ByteRequest) (buf : Buffer) :
  get store key byte_range = Ok (Some buf) <->
  backend_returns store key byte_range (to_bytes buf).
Proof.
  split.
  - unfold get, try_except.
    pose proof (get_body_inv store key byte_range) as Hinv.
    destruct (get_body store key byte_range) as [v | e].
    + destruct Hinv as (b & -> & Hb). intros [= <-]. exact Hb.
    + destruct (except_matches ALLOWED_EXCEPTIONS e); discriminate.
  - intros H. unfold get. rewrite (get_body_returns _ _ _ _ H).
    destruct buf. reflexivity.
Qed.

End GetMore.

(** ** The batched read *)

Section BatchMore.
Import ObjectStore.

Lemma partition_requests_unknown (rest : list (string * option ByteRequest))
    (key : string) :
  In (key, Some UnknownRequest) rest ->
  forall idx d o, partition_requests idx rest d o = Raise ValueError.
Proof.
  induction rest as [|[path br] rest IH]; intros Hin idx d o; [destruct Hin|].
  destruct Hin as [[= -> ->] | Hin]; [reflexivity|].
  destruct br as [[start end_ | offset | suffix | ] | ]; simpl;
    try apply IH; auto.
Qed.

(** X18: a byte range that is none of the three request classes makes [get]
    raise [ValueError], and makes [get_partial_values] raise [ValueError]
    wherever it stands in the batch, whatever the backend holds. *)
Theorem unknown_request_rejected (store : ObstoreBackend) (key : string)
    (key_ranges : list (string * option ByteRequest)) :
  get store key (Some UnknownRequest) = Raise ValueError /\
  (In (key, Some UnknownRequest) key_ranges ->
   get_partial_values store key_ranges = Raise ValueError).
Proof.
  split; [reflexivity|]. intros Hin.
  unfold get_partial_values, _get_partial_values.
  rewrite (partition_requests_unknown _ _ Hin). reflexivity.
Qed.

Lemma unknown_request_rejected_witness :
  get_partial_values example_store
    [("a", None); ("missing", Some UnknownRequest)] = Raise ValueError.
Proof.
  apply (unknown_request_rejected example_store "missing"). right. left. reflexivity.
Defined.

Lemma place_responses_length (rs : list _Response) :
  forall bufs bufs', place_responses rs bufs = Ok bufs' ->
  length bufs' = length bufs.
Proof.
  induction rs as [|r rs IH]; intros bufs bufs'; simpl.
  - intros [= <-]. reflexivity.
  - unfold setitem. destruct (bool_decide _); simpl; [|discriminate].
    intros H. rewrite (IH _ _ H). apply length_insert.
Qed.

(** X19: when [get_partial_values] returns, the result has the length of the
    input, on every backend. *)
Theorem get_partial_values_length (store : ObstoreBackend)
    (key_ranges : list (string * option ByteRequest))
    (bufs : list (option Buffer)) :
  get_partial_values store key_ranges = Ok bufs ->
  length bufs = length key_ranges.
Proof.
  unfold get_partial_values, _get_partial_values.
  destruct (partition_requests 0 key_ranges [] []) as [parts | e];
    simpl; [|discriminate].
  destruct (gather _) as [gathered | e]; simpl; [|discriminate].
  rewrite place_all_concat. intros H.
  rewrite (place_responses_length _ _ _ H). apply length_replicate.
Qed.

Lemma get_partial_values_length_witness :
  length [Some (from_bytes [x68; x65]); Some (from_bytes hello)] =
  length [("a", Some (RangeByteRequest 0 2)); ("a", @None ByteRequest)].
Proof.
  apply (get_partial_values_length example_store). reflexivity.
Defined.

Lemma dict_append_keys (d : per_file) (path : string) (r : _BoundedRequest) :
  map fst (dict_append d path r) =
  if bool_decide (path ∈ map fst d) then map fst d
  else (map fst d ++ [path])%list.
Proof.
  induction d as [|[p rs] d IH]; simpl; [reflexivity|].
  destruct (String.eqb_spec p path) as [-> | Hne]; simpl.
  - rewrite bool_decide_eq_true_2 by apply list_elem_of_here. reflexivity.
  - rewrite IH. destruct (bool_decide (path ∈ map fst d)) eqn:Hin.
    + apply bool_decide_eq_true in Hin.
      rewrite bool_decide_eq_true_2 by (apply list_elem_of_further, Hin).
      reflexivity.
    + apply bool_decide_eq_false in Hin.
      rewrite bool_decide_eq_false_2; [reflexivity|].
      intros H. apply elem_of_cons in H as [H | H]; [congruence | auto].
Qed.

Lemma dict_append_NoDup (d : per_file) (path : string) (r : _BoundedRequest) :
  NoDup (map fst d) -> NoDup (map fst (dict_append d path r)).
Proof.
  intros Hnd. rewrite dict_append_keys.
  destruct (bool_decide (path ∈ map fst d)) eqn:Hin; [exact Hnd|].
  apply bool_decide_eq_false in Hin.
  apply NoDup_app. split; [exact Hnd|]. split.
  - intros x Hx Hx'. apply list_elem_of_singleton in Hx'. subst x. auto.
  - apply NoDup_singleton.
Qed.

Lemma dict_append_perm (d : per_file) (path : string) (r : _BoundedRequest) :
  Permutation (bounded_indices (dict_append d path r))
              (bounded_indices d ++ [bounded_index r]).
Proof.
  induction d as [|[p rs] d IH]; simpl dict_append; [reflexivity|].
  destruct (String.eqb p path); rewrite !bounded_indices_cons.
  - rewrite map_app. simpl. rewrite <- !app_assoc.
    apply Permutation_app_head, Permutation_app_comm.
  - rewrite IH, app_assoc. reflexivity.
Qed.

Lemma partition_requests_holds (rest : list (string * option ByteRequest)) :
  forall (idx : nat) (d d' : per_file) (o o' : list _OtherRequest),
  partition_requests idx rest d o = Ok (d', o') ->
  NoDup (map fst d) ->
  (forall p rs, In (p, rs) d -> rs <> []) ->
  Permutation (bounded_indices d ++ map other_index o) (seq 0 idx) ->
  NoDup (map fst d') /\
  (forall p rs, In (p, rs) d' -> rs <> []) /\
  Permutation (bounded_indices d' ++ map other_index o')
              (seq 0 (idx + length rest)).
Proof.
  induction rest as [|[path br] rest IH]; intros idx d d' o o' H Hnd Hne Hperm.
  - simpl in H. injection H as <- <-. rewrite Nat.add_0_r. auto.
  - replace (idx + length ((path, br) :: rest))%nat
      with (S idx + length rest)%nat by (simpl; lia).
    assert (Hother : forall range,
              Permutation
                (bounded_indices d ++
                 map other_index (o ++ [mkOther idx path range]))
                (seq 0 (S idx))).
    { intros range. rewrite map_app, app_assoc, Hperm, seq_S. reflexivity. }
    destruct br as [[start end_ | offset | suffix | ] | ]; simpl in H;
      try discriminate; try (eapply IH; eauto; fail).
    eapply IH; [exact H | | |].
    + apply dict_append_NoDup, Hnd.
    + intros p rs. apply dict_append_nonempty, Hne.
    + rewrite dict_append_perm, seq_S, <- Hperm, <- !app_assoc.
      apply Permutation_app_head, Permutation_app_comm.
Qed.

(** X20: the partition of a batch has one group per distinct path, no group
    is empty, and the groups and standalone requests together hold every
    original index exactly once. *)
Theorem partition_requests_complete
    (key_ranges : list (string * option ByteRequest))
    (d : per_file) (o : list _OtherRequest) :
  partition_requests 0 key_ranges [] [] = Ok (d, o) ->
  NoDup (map fst d) /\
  (forall p rs, In (p, rs) d -> rs <> []) /\
  Permutation (bounded_indices d ++ map other_index o)
              (seq 0 (length key_ranges)).
Proof.
  intros H. apply (partition_requests_holds _ _ _ _ _ _ H).
  - constructor.
  - intros p rs [].
  - reflexivity.
Qed.

Lemma partition_requests_complete_witness :
  let d := [("a", [mkBounded 0 0 2; mkBounded 2 1 3]); ("b", [mkBounded 3 0 1])] in
  let o := [mkOther 1 "a" None; mkOther 4 "b" (Some (SuffixRange 2))] in
  NoDup (map fst d) /\
  (forall p rs, In (p, rs) d -> rs <> []) /\
  Permutation (bounded_indices d ++ map other_index o) (seq 0 5).
Proof.
  apply (partition_requests_complete
           [("a", Some (RangeByteRequest 0 2)); ("a", None);
            ("a", Some (RangeByteRequest 1 3)); ("b", Some (RangeByteRequest 0 1));
            ("b", Some (SuffixByteRequest 2))]).
  reflexivity.
Defined.

Lemma partition_requests_others (rest : list (string * option ByteRequest)) :
  forall (idx : nat) (d d' : per_file) (o o' : list _OtherRequest),
  partition_requests idx rest d o = Ok (d', o') ->
  (forall r, In r o -> In r o') /\
  (forall key br, In (key, br) rest -> standalone br ->
     exists r, In r o' /\ other_path r = key /\
               request_of (other_range r) = br).
Proof.
  induction rest as [|[path br] rest IH]; intros idx d d' o o' H.
  - simpl in H. injection H as <- <-. split; [auto|]. intros key br [].
  - assert (Hstep : forall range, request_of range = br ->
              partition_requests (S idx) rest d
                (o ++ [mkOther idx path range]) = Ok (d', o') ->
              (forall r, In r o -> In r o') /\
              (forall key br', In (key, br') ((path, br) :: rest) ->
                 standalone br' ->
                 exists r, In r o' /\ other_path r = key /\
                           request_of (other_range r) = br')).
    { intros range Hrange Hrest.
      destruct (IH _ _ _ _ _ Hrest) as [Hkeep Hall]. split.
      - intros r Hr. apply Hkeep, in_or_app. auto.
      - intros key br' [[= <- <-] | Hin] Hst; [|apply (Hall key br' Hin Hst)].
        exists (mkOther idx path range). split; [|auto].
        apply Hkeep, in_or_app. right. left. reflexivity. }
    destruct br as [[start end_ | offset | suffix | ] | ]; simpl in H.
    + destruct (IH _ _ _ _ _ H) as [Hkeep Hall]. split; [exact Hkeep|].
      intros key br' [[= <- <-] | Hin] Hst; [destruct Hst|].
      apply (Hall key br' Hin Hst).
    + apply (Hstep (Some (OffsetRange offset)) eq_refl H).
    + apply (Hstep (Some (SuffixRange suffix)) eq_refl H).
    + discriminate.
    + apply (Hstep None eq_refl H).
Qed.

Lemma other_request_raises (store : ObstoreBackend) (r : _OtherRequest) (e : exn) :
  backend_raises store (other_path r) (request_of (other_range r)) e ->
  _make_other_request store r = Raise e.
Proof.
  unfold _make_other_request. intros H.
  destruct (other_range r) as [[offset | suffix] | ]; simpl in H;
    inversion H; subst;
    repeat match goal with
           | Hc : _ = _ |- _ => rewrite Hc; simpl
           end; reflexivity.
Qed.

Lemma mapM_raises {A B : Type} (f : A -> result B) (l : list A) (x : A) (e : exn) :
  In x l -> f x = Raise e -> exists e', mapM f l = Raise e'.
Proof.
  induction l as [|a l IH]; intros Hin Hx; [destruct Hin|]. simpl.
  destruct (f a) as [b | e0] eqn:Ha; simpl; [|eauto].
  destruct Hin as [-> | Hin]; [congruence|].
  destruct (IH Hin Hx) as [e' ->]. simpl. eauto.
Qed.

(** X22: if the backend read of any full, offset or suffix request of a batch
    raises, then [get_partial_values] raises, whatever the other requests
    of the batch are. *)
Theorem standalone_failure_fails_batch (store : ObstoreBackend)
    (key_ranges : list (string * option ByteRequest)) (key : string)
    (byte_range : option ByteRequest) (e : exn) :
  In (key, byte_range) key_ranges ->
  standalone byte_range ->
  backend_raises store key byte_range e ->
  exists e', get_partial_values store key_ranges = Raise e'.
Proof.
  intros Hin Hst Hraise. unfold get_partial_values, _get_partial_values.
  destruct (partition_requests 0 key_ranges [] []) as [[d o] | e0] eqn:Hpart;
    simpl; [|eauto].
  destruct (partition_requests_others _ _ _ _ _ _ Hpart) as [_ Hall].
  destruct (Hall key byte_range Hin Hst) as (r & Hr & <- & <-).
  unfold gather. rewrite mapM_app, !mapM_map.
  destruct (mapM _ d) as [gd | e1]; simpl; [|eauto].
  destruct (mapM_raises (fun request => _make_other_request store request) o r e Hr
              (other_request_raises store r e Hraise)) as [e' ->].
  simpl. eauto.
Qed.

Lemma standalone_failure_fails_batch_witness :
  exists e', get_partial_values example_store
               [("a", Some (RangeByteRequest 1 3));
                ("a", Some (SuffixByteRequest 2));
                ("nothing-here", Some (OffsetByteRequest 0))] = Raise e'.
Proof.
  apply (standalone_failure_fails_batch example_store _ "nothing-here"
           (Some (OffsetByteRequest 0)) FileNotFoundError).
  - right. right. left. reflexivity.
  - exact I.
  - apply raises_offset_call. reflexivity.
Defined.

Lemma get_partial_values_sequential_witness :
  let key_ranges :=
    [("a", Some (RangeByteRequest 0 2)); ("a", Some (SuffixByteRequest 2));
     ("a", None); ("a", Some (RangeByteRequest 3 9))] in
  let target :=
    [Some (from_bytes [x68; x65]); Some (from_bytes [x6c; x6f]);
     Some (from_bytes hello); Some (from_bytes [x6c; x6f])] in
  get_partial_values example_store key_ranges = Ok target /\
  sequential_get example_store key_ranges = Ok target.
Proof.
  apply (get_partial_values_sequential example_store).
  - unfold example_store. apply memory_store_coherent.
  - reflexivity.
Defined.

Lemma zip_strict_length {A B : Type} (xs : list A) (ys : list B) :
  length xs <> length ys -> zip_strict xs ys = Raise ValueError.
Proof.
  revert ys. induction xs as [|x xs IH]; intros [|y ys] Hlen; simpl in *;
    try reflexivity; try congruence.
  rewrite IH by congruence. reflexivity.
Qed.

(** X23: when the multi-range call of the backend answers with a number of
    ranges other than the number requested, [_make_bounded_requests] raises
    [ValueError]. *)
Theorem bounded_response_count (store : ObstoreBackend) (path : string)
    (requests : list _BoundedRequest) (responses : list bytes) :
  get_ranges_async store path (map bounded_start requests)
    (map bounded_end requests) = Ok responses ->
  length responses <> length requests ->
  _make_bounded_requests store path requests = Raise ValueError.
Proof.
  intros Hcall Hlen. unfold _make_bounded_requests. rewrite Hcall. simpl.
  rewrite zip_strict_length by congruence. reflexivity.
Qed.

End BatchMore.

(** ** Listing *)

Section ListingFacts.
Import ObjectStore Listing.

Example list_dir_example :
  list_dir example_listing "a" = ["b"; "e"] /\
  list_prefix example_listing "a" = ["a/b"; "a/c/d"; "a/e"] /\
  list_ example_listing = ["a/b"; "a/c/d"; "a/e"; "b/f"; "top"].
Proof. repeat split; reflexivity. Qed.

Lemma in_transform_list (stream : list (list ObjectMeta)) (path : string) :
  In path (_transform_list stream) <->
  exists item, In item (concat stream) /\ meta_path item = path.
Proof.
  unfold _transform_list. rewrite in_flat_map. split.
  - intros (batch & Hb & Hin). apply in_flat_map in Hin as (item & Hi & [<- | []]).
    exists item. split; [|reflexivity]. apply in_concat. eauto.
  - intros (item & Hin & <-). apply in_concat in Hin as (batch & Hb & Hi).
    exists batch. split; [exact Hb|]. apply in_flat_map. exists item.
    split; [exact Hi | left; reflexivity].
Qed.

Lemma in_transform_list_dir (stream : list (list ObjectMeta)) (prefix name : string) :
  In name (_transform_list_dir stream prefix) <->
  has_slash name = false /\
  exists item, In item (concat stream) /\
    str_drop (String.length prefix + 1) (meta_path item) = name.
Proof.
  unfold _transform_list_dir. rewrite in_flat_map. split.
  - intros (batch & Hb & Hin). apply in_flat_map in Hin as (item & Hi & Hn).
    destruct (has_slash (str_drop _ (meta_path item))) eqn:Hs; simpl in Hn;
      [destruct Hn|]. destruct Hn as [<- | []].
    split; [exact Hs|]. exists item. split; [|reflexivity]. apply in_concat. eauto.
  - intros (Hs & item & Hin & Hn). apply in_concat in Hin as (batch & Hb & Hi).
    exists batch. split; [exact Hb|]. apply in_flat_map. exists item.
    split; [exact Hi|]. rewrite Hn, Hs. left. reflexivity.
Qed.

Lemma str_drop_app (a b : string) : str_drop (String.length a) (a ++ b) = b.
Proof. induction a as [|c a IH]; [reflexivity | exact IH]. Qed.

Lemma str_drop_prefix (prefix rest : string) :
  str_drop (String.length prefix + 1) (prefix ++ String "/" rest) = rest.
Proof.
  induction prefix as [|c p IH]; [reflexivity | exact IH].
Qed.

(** The names that [list_dir] yields never contain a slash. *)
Lemma list_dir_names_flat (store : ObstoreListing) (prefix : string) :
  Forall (fun name => has_slash name = false) (list_dir store prefix).
Proof.
  apply List.Forall_forall. intros name Hin.
  apply in_transform_list_dir in Hin as [Hs _]. exact Hs.
Qed.

(** X25: when every listed path is [prefix/rest], [list_dir] yields exactly
    the slash-free names [name] for which [prefix/name] is listed: nested
    objects, and so child directories, are left out. *)
Theorem list_dir_children (store : ObstoreListing) (prefix name : string) :
  (forall item, In item (concat (obs_list store (Some prefix))) ->
     exists rest, meta_path item = prefix ++ String "/" rest) ->
  (In name (list_dir store prefix) <->
   has_slash name = false /\
   In (prefix ++ String "/" name) (list_prefix store prefix)).
Proof.
  intros Hhonest. unfold list_dir, list_prefix.
  rewrite in_transform_list_dir, in_transform_list. split.
  - intros (Hs & item & Hin & Hn). split; [exact Hs|].
    exists item. split; [exact Hin|].
    destruct (Hhonest item Hin) as [rest Hrest].
    rewrite Hrest, str_drop_prefix in Hn. subst rest. exact Hrest.
  - intros (Hs & item & Hin & Hp). split; [exact Hs|].
    exists item. split; [exact Hin|]. rewrite Hp. apply str_drop_prefix.
Qed.

Lemma list_dir_children_witness :
  In "e" (list_dir example_listing "a") <->
  has_slash "e" = false /\ In "a/e" (list_prefix example_listing "a").
Proof.
  apply (list_dir_children example_listing "a" "e").
  intros item Hin. simpl in Hin.
  destruct Hin as [<- | [<- | [<- | []]]]; eexists; reflexivity.
Defined.

(** X26: with the empty prefix [list_dir] drops the first character of every
    path: a listed path [c name] without further slash is yielded as
    [name]. *)
Theorem list_dir_empty_prefix (store : ObstoreListing) (c : ascii) (name : string) :
  In (String c name) (list_prefix store "") ->
  has_slash name = false ->
  In name (list_dir store "").
Proof.
  unfold list_dir, list_prefix. rewrite in_transform_list, in_transform_list_dir.
  intros (item & Hin & Hp) Hs. split; [exact Hs|].
  exists item. split; [exact Hin|]. rewrite Hp. reflexivity.
Qed.

Lemma list_dir_empty_prefix_witness : In "op" (list_dir example_listing "").
Proof.
  apply (list_dir_empty_prefix example_listing "t" "op"); [|reflexivity].
  vm_compute. tauto.
Defined.

(** X27: [list_dir] yields no more names than [list_prefix] yields paths,
    none of them contains a slash, and each is a path of [list_prefix]
    without its first [len(prefix) + 1] characters. *)
Theorem list_dir_from_list_prefix (store : ObstoreListing) (prefix : string) :
  (length (list_dir store prefix) <= length (list_prefix store prefix))%nat /\
  forall name, In name (list_dir store prefix) ->
    has_slash name = false /\
    exists path, In path (list_prefix store prefix) /\
                 name = str_drop (String.length prefix + 1) path.
Proof.
  split.
  - unfold list_dir, list_prefix, _transform_list_dir, _transform_list.
    induction (obs_list store (Some prefix)) as [|batch stream IH]; simpl; [lia|].
    rewrite !length_app.
    assert (Hb : (length (flat_map (fun item =>
                     if negb (has_slash (str_drop (String.length prefix + 1)
                                                  (meta_path item)))
                     then [str_drop (String.length prefix + 1) (meta_path item)]
                     else []) batch)
                  <= length (flat_map (fun item => [meta_path item]) batch))%nat).
    { clear. induction batch as [|item batch IHb]; simpl; [lia|].
      rewrite length_app. destruct (negb _); simpl; lia. }
    lia.
  - intros name Hin. apply in_transform_list_dir in Hin as (Hs & item & Hi & Hn).
    split; [exact Hs|]. exists (meta_path item). split; [|auto].
    apply in_transform_list. eauto.
Qed.

Lemma list_dir_from_list_prefix_witness :
  (length (list_dir example_listing "a")
     <= length (list_prefix example_listing "a"))%nat /\
  has_slash "b" = false /\
  exists path, In path (list_prefix example_listing "a") /\
               "b" = str_drop (String.length "a" + 1) path.
Proof.
  destruct (list_dir_from_list_prefix example_listing "a") as [Hlen Hall].
  split; [exact Hlen|]. apply Hall. left. reflexivity.
Defined.

End ListingFacts.

(** ** Writing *)

Section WriteFacts.
Import ObjectStore Writing.
Context {S : Type} (store : ObstoreWriter S).

(** A store that is not writable refuses every write before the backend is
    called. *)
Lemma read_only_refuses (st : S) (key : string) (value : Buffer) :
  set store true st key value = (st, Raise ReadOnlyError) /\
  set_if_not_exists store true st key value = (st, Raise ReadOnlyError) /\
  delete store true st key = (st, Raise ReadOnlyError).
Proof. repeat split. Qed.

(** X28: on a writable store [set_if_not_exists] makes one create-only put;
    it succeeds when the put succeeds or raises [AlreadyExistsError], and
    raises any other exception of the put unchanged; the backend is left
    as the put left it. *)
Theorem set_if_not_exists_outcome (st st' : S) (key : string) (value : Buffer)
    (r : result unit) :
  put_async store st key (to_bytes value) ModeCreate = (st', r) ->
  set_if_not_exists store false st key value =
  (st', match r with
        | Raise e => if bool_decide (e = AlreadyExistsError) then Ok tt else Raise e
        | Ok _ => r
        end).
Proof.
  intros Hput. unfold set_if_not_exists. simpl. rewrite Hput.
  destruct r as [[] | e]; simpl; [reflexivity|].
  destruct e; try reflexivity.
  simpl. unfold AlreadyExistsError.
  destruct (bool_decide (OtherError name = OtherError "AlreadyExistsError"));
    reflexivity.
Qed.

End WriteFacts.

Section MemoryWriteFacts.
Import ObjectStore Writing.

(** On the in-memory backend [set_if_not_exists] leaves an existing object
    as it is, and stores the value otherwise. *)
Lemma set_if_not_exists_keeps_existing (objects : gmap string bytes)
    (key : string) (value : Buffer) :
  set_if_not_exists memory_writer false objects key value =
  (match objects !! key with
   | Some _ => objects
   | None => <[ key := to_bytes value ]> objects
   end, Ok tt).
Proof.
  unfold set_if_not_exists. simpl.
  destruct (objects !! key); reflexivity.
Qed.

(** X29: on the in-memory backend, after a [set] that succeeds, [get] of the
    key returns the buffer set, [exists] is true, and the other keys read as
    before. *)
Theorem set_then_get (objects objects' : gmap string bytes) (key : string)
    (value : Buffer) :
  set memory_writer false objects key value = (objects', Ok tt) ->
  get (memory_store objects' ∅) key None = Ok (Some value) /\
  exists_ (memory_store objects' ∅) key = Ok true /\
  forall other, other <> key ->
    get (memory_store objects' ∅) other None = get (memory_store objects ∅) other None.
Proof.
  unfold set. simpl. intros [= <-].
  unfold get, get_body, exists_. simpl. unfold lookup_object.
  rewrite lookup_empty, lookup_insert_eq. simpl. destruct value.
  split; [reflexivity|]. split; [reflexivity|].
  intros other Hne. rewrite lookup_empty, lookup_insert_ne by congruence.
  reflexivity.
Qed.

Lemma set_then_get_witness :
  let objects' : gmap string bytes := <[ "k" := hello ]> ∅ in
  get (memory_store objects' ∅) "k" None = Ok (Some (from_bytes hello)) /\
  exists_ (memory_store objects' ∅) "k" = Ok true /\
  forall other, other <> "k" ->
    get (memory_store objects' ∅) other None = get (memory_store ∅ ∅) other None.
Proof.
  apply (set_then_get ∅ (<[ "k" := hello ]> ∅) "k" (from_bytes hello)).
  reflexivity.
Defined.

Lemma set_if_not_exists_outcome_witness :
  set_if_not_exists memory_writer false ({[ "k" := hello ]} : gmap string bytes)
    "k" (from_bytes [x68]) =
  ({[ "k" := hello ]}, Ok tt).
Proof.
  exact (set_if_not_exists_outcome memory_writer
           ({[ "k" := hello ]} : gmap string bytes) {[ "k" := hello ]}
           "k" (from_bytes [x68]) (Raise AlreadyExistsError) eq_refl).
Defined.

(** On the in-memory backend a deleted key reads as absent. *)
Lemma delete_then_get (objects objects' : gmap string bytes) (key : string) :
  delete memory_writer false objects key = (objects', Ok tt) ->
  get (memory_store objects' ∅) key None = Ok None /\
  exists_ (memory_store objects' ∅) key = Ok false.
Proof.
  unfold delete. simpl. intros [= <-].
  unfold get, get_body, exists_. simpl. unfold lookup_object.
  rewrite lookup_empty, lookup_delete_eq. split; reflexivity.
Qed.

End MemoryWriteFacts.

(** ** Runtime configuration *)

Section ConfigFacts.
Import Config.

(** X30: a [RuntimeConfiguration] built with an accepted loop keeps it under
    [asyncio_loop_parsed]; its declared field [asyncio_loop] still reads
    [None]. *)
Theorem runtime_configuration_loop (loop : pyvalue) (cfg : RuntimeConfiguration) :
  __init__ loop = Ok cfg ->
  getattr cfg "asyncio_loop" = Ok PyNone /\
  getattr cfg "asyncio_loop_parsed" = Ok loop.
Proof.
  unfold __init__. destruct loop; simpl; try discriminate;
    intros [= <-]; split; reflexivity.
Qed.

Lemma runtime_configuration_loop_witness :
  getattr (mkRuntimeConfiguration {[ "asyncio_loop_parsed" := PyEventLoop 1 ]})
    "asyncio_loop" = Ok PyNone /\
  getattr (mkRuntimeConfiguration {[ "asyncio_loop_parsed" := PyEventLoop 1 ]})
    "asyncio_loop_parsed" = Ok (PyEventLoop 1).
Proof.
  apply (runtime_configuration_loop (PyEventLoop 1)). reflexivity.
Defined.

(** [parse_indexing_order] accepts ["C"] and ["F"] and nothing else. *)
Lemma parse_indexing_order_accepts (data v : pyvalue) :
  parse_indexing_order data = Ok v <->
  v = data /\ (data = PyStr "C" \/ data = PyStr "F").
Proof.
  split.
  - destruct data as [| s | |]; simpl; try discriminate.
    destruct (String.eqb_spec s "C") as [-> | HC]; simpl.
    + intros [= <-]. auto.
    + destruct (String.eqb_spec s "F") as [-> | HF]; [|discriminate].
      intros [= <-]. auto.
  - intros [-> [-> | ->]]; reflexivity.
Qed.

End ConfigFacts.

(** ** Request order in the batched read *)

Section OrderFacts.
Import ObjectStore.

Lemma StronglySorted_snoc (l : list nat) (x : nat) :
  StronglySorted lt l -> Forall (fun y => (y < x)%nat) l ->
  StronglySorted lt (l ++ [x]).
Proof.
  induction 1 as [|a l Hl IH Ha]; intros Hlt; simpl.
  - constructor; constructor.
  - inversion Hlt as [|? ? Hax Hlx]; subst.
    constructor; [apply IH, Hlx|].
    apply Forall_app. split; [exact Ha | constructor; [exact Hax | constructor]].
Qed.

Lemma ordered_below_mono (idx : nat) (d : per_file) (o : list _OtherRequest) :
  ordered_below idx d o -> ordered_below (S idx) d o.
Proof.
  intros (Hd & Hso & Ho). split; [|split; [exact Hso|]].
  - intros p rs Hin. destruct (Hd p rs Hin) as [Hs Hb]. split; [exact Hs|].
    eapply Forall_impl; [exact Hb|]. simpl. lia.
  - eapply Forall_impl; [exact Ho|]. simpl. lia.
Qed.

Lemma dict_append_In_inv (d : per_file) (path : string) (r : _BoundedRequest)
    (p : string) (rs : list _BoundedRequest) :
  In (p, rs) (dict_append d path r) ->
  In (p, rs) d \/ (p = path /\ exists rs0, rs = (rs0 ++ [r])%list /\
                     (rs0 = [] \/ In (p, rs0) d)).
Proof.
  induction d as [|[p0 rs0] d IH]; simpl.
  - intros [[= <- <-] | []]. right. split; [reflexivity|]. exists []. auto.
  - destruct (String.eqb_spec p0 path) as [-> | Hne].
    + intros [[= <- <-] | Hin]; [|auto].
      right. split; [reflexivity|]. exists rs0. auto.
    + intros [[= <- <-] | Hin]; [auto|].
      destruct (IH Hin) as [H | (-> & rs1 & -> & [-> | H])]; [auto | |].
      * right. split; [reflexivity|]. exists []. auto.
      * right. split; [reflexivity|]. exists rs1. auto.
Qed.

Lemma partition_requests_ordered (rest : list (string * option ByteRequest)) :
  forall (idx : nat) (d d' : per_file) (o o' : list _OtherRequest),
  partition_requests idx rest d o = Ok (d', o') ->
  ordered_below idx d o ->
  ordered_below (idx + length rest) d' o'.
Proof.
  induction rest as [|[path br] rest IH]; intros idx d d' o o' H Hord.
  - simpl in H. injection H as <- <-. rewrite Nat.add_0_r. exact Hord.
  - replace (idx + length ((path, br) :: rest))%nat
      with (S idx + length rest)%nat by (simpl; lia).
    assert (Hother : forall range,
              ordered_below (S idx) d (o ++ [mkOther idx path range])).
    { intros range. destruct Hord as (Hd & Hso & Ho).
      destruct (ordered_below_mono idx d o (conj Hd (conj Hso Ho))) as (Hd' & _ & Ho').
      split; [exact Hd'|]. rewrite map_app. simpl. split.
      - apply StronglySorted_snoc; assumption.
      - apply Forall_app. split; [exact Ho'|]. repeat constructor. }
    destruct br as [[start end_ | offset | suffix | ] | ]; simpl in H;
      try discriminate; try (eapply IH; eauto; fail).
    eapply IH; [exact H|].
    destruct Hord as (Hd & Hso & Ho).
    destruct (ordered_below_mono idx d o (conj Hd (conj Hso Ho))) as (Hd' & _ & Ho').
    split; [|split; assumption].
    intros p rs Hin.
    destruct (dict_append_In_inv _ _ _ _ _ Hin)
      as [Hold | (-> & rs0 & -> & Hrs0)]; [exact (Hd' _ _ Hold)|].
    rewrite map_app. simpl.
    assert (Hrs : StronglySorted lt (map bounded_index rs0) /\
                  Forall (fun i => (i < idx)%nat) (map bounded_index rs0)).
    { destruct Hrs0 as [-> | Hold]; [split; constructor | exact (Hd _ _ Hold)]. }
    destruct Hrs as [Hs Hb]. split.
    + apply StronglySorted_snoc; assumption.
    + apply Forall_app. split.
      * eapply Forall_impl; [exact Hb|]. simpl. lia.
      * repeat constructor.
Qed.

(** X21: within each group, and among the standalone requests, the requests
    are in the order of the input: their original indices increase. *)
Theorem partition_requests_first_seen_order
    (key_ranges : list (string * option ByteRequest))
    (d : per_file) (o : list _OtherRequest) :
  partition_requests 0 key_ranges [] [] = Ok (d, o) ->
  (forall p rs, In (p, rs) d -> StronglySorted lt (map bounded_index rs)) /\
  StronglySorted lt (map other_index o).
Proof.
  intros H.
  destruct (partition_requests_ordered _ _ _ _ _ _ H) as (Hd & Ho & _).
  - split; [intros p rs []|]. split; constructor.
  - split; [|exact Ho]. intros p rs Hin. apply (Hd p rs Hin).
Qed.

Lemma partition_requests_first_seen_order_witness :
  let d := [("a", [mkBounded 0 0 2; mkBounded 2 1 3]); ("b", [mkBounded 3 0 1])] in
  let o := [mkOther 1 "a" None; mkOther 4 "b" (Some (SuffixRange 2))] in
  (forall p rs, In (p, rs) d -> StronglySorted lt (map bounded_index rs)) /\
  StronglySorted lt (map other_index o).
Proof.
  apply (partition_requests_first_seen_order
           [("a", Some (RangeByteRequest 0 2)); ("a", None);
            ("a", Some (RangeByteRequest 1 3)); ("b", Some (RangeByteRequest 0 1));
            ("b", Some (SuffixByteRequest 2))]).
  reflexivity.
Defined.

Lemma bounded_response_count_witness :
  _make_bounded_requests truncating_store "a"
    [mkBounded 0 0 2; mkBounded 1 2 4] = Raise ValueError.
Proof.
  apply (bounded_response_count truncating_store "a" _ [[x6c; x6c]]).
  - reflexivity.
  - simpl. lia.
Defined.

End OrderFacts.
